(** * FireO: model serialization and identity engine

    A shallow embedding of [fireo/models/model.py] (class [Model]) and of
    [fireo/utils/utils.py] (path helpers and [remove_none_field]).

    Python values are the inductive [pyval]; a Python [dict] is an
    association list whose keys are kept unique by [Dict.set], the
    embedding of [d[k] = v] (an existing key keeps its position, a new key
    is appended, as in Python's insertion-ordered dicts).  A model instance
    is its instance [__dict__] ([attrs], read with the class defaults of
    [Model]) together with its [_field_changed] log.  The field descriptors
    are external collaborators: their capabilities are the variables of the
    section [Engine].  The persistence manager is external too: [update]
    returns the arguments it would pass to [collection._update]. *)

From Stdlib Require Import String Ascii List Bool ZArith Lia DecimalString.
Import ListNotations.
Open Scope string_scope.
Open Scope list_scope.
Set Warnings "-register-all".

(** ** Python values *)

Inductive pyval : Type :=
| VNone
| VBool (b : bool)
| VInt (z : Z)
| VStr (s : string)
| VList (l : list pyval)
| VDict (d : list (string * pyval)).

Definition is_none (v : pyval) : bool :=
  match v with VNone => true | _ => false end.

(** Python truthiness. *)
Definition truthy (v : pyval) : bool :=
  match v with
  | VNone => false
  | VBool b => b
  | VInt z => negb (Z.eqb z 0)
  | VStr s => negb (String.eqb s "")
  | VList l => match l with [] => false | _ => true end
  | VDict d => match d with [] => false | _ => true end
  end.

(** A nested induction principle for [pyval]. *)
Section PyvalInd.
Variable P : pyval -> Prop.
Hypothesis HNone : P VNone.
Hypothesis HBool : forall b, P (VBool b).
Hypothesis HInt : forall z, P (VInt z).
Hypothesis HStr : forall s, P (VStr s).
Hypothesis HList : forall l, Forall P l -> P (VList l).
Hypothesis HDict : forall d, Forall (fun kv => P (snd kv)) d -> P (VDict d).

Fixpoint pyval_nested_ind (v : pyval) : P v :=
  match v with
  | VNone => HNone
  | VBool b => HBool b
  | VInt z => HInt z
  | VStr s => HStr s
  | VList l =>
      HList l
        ((fix go (l : list pyval) : Forall P l :=
            match l with
            | [] => Forall_nil _
            | x :: t => Forall_cons _ (pyval_nested_ind x) (go t)
            end) l)
  | VDict d =>
      HDict d
        ((fix go (d : list (string * pyval)) : Forall (fun kv => P (snd kv)) d :=
            match d with
            | [] => Forall_nil _
            | kv :: t => Forall_cons _ (pyval_nested_ind (snd kv)) (go t)
            end) d)
  end.
End PyvalInd.

(** ** Python dictionaries with string keys *)

Module Dict.
Section D.
Context {A : Type}.

(** [d.get(k)] *)
Fixpoint get (d : list (string * A)) (k : string) : option A :=
  match d with
  | [] => None
  | (k', v) :: t => if String.eqb k k' then Some v else get t k
  end.

(** [d[k] = v] *)
Fixpoint set (d : list (string * A)) (k : string) (v : A) : list (string * A) :=
  match d with
  | [] => [(k, v)]
  | (k', v') :: t =>
      if String.eqb k k' then (k', v) :: t else (k', v') :: set t k v
  end.
End D.
End Dict.

Definition dict := list (string * pyval).

(** ** [fireo/utils/utils.py]: path helpers *)

(** [s.split('/')] *)
Fixpoint split_slash (s : string) : list string :=
  match s with
  | EmptyString => [EmptyString]
  | String c r =>
      let rest := split_slash r in
      if Ascii.eqb c "/"%char then EmptyString :: rest
      else match rest with
           | h :: t => String c h :: t
           | [] => [String c EmptyString]
           end
  end.

(** ['/'.join(parts)] *)
Fixpoint join_slash (parts : list string) : string :=
  match parts with
  | [] => EmptyString
  | [p] => p
  | p :: t => p ++ "/" ++ join_slash t
  end.

(** [get_id(key)]: [key.split('/')[-1]] *)
Definition get_id (key : string) : string :=
  last (split_slash key) EmptyString.

(** [get_parent_doc(key)]: ['/'.join(key.split('/')[:-2])] *)
Definition get_parent_doc (key : string) : string :=
  let parts := split_slash key in
  join_slash (firstn (length parts - 2) parts).

(** [needle in s] for strings. *)
Fixpoint str_contains (needle s : string) : bool :=
  String.prefix needle s ||
  match s with
  | EmptyString => false
  | String _ r => str_contains needle r
  end.

Definition temp_doc_id : string := "@temp_doc_id".

(** ** Field descriptors, model meta and model instances *)

(** The field kinds the engine distinguishes ([fields.MapField],
    [fields.NestedModelField], [fields.IDField], any other field). *)
Inductive field_kind : Type := KScalar | KMap | KNested | KId.

(** A field descriptor: [field.name], [field.db_column_name] and its kind. *)
Record Field : Type := mkField {
  f_name : string;
  f_column : string;
  f_kind : field_kind
}.

Definition is_map_field (f : Field) : bool :=
  match f_kind f with KMap => true | _ => false end.

(** [self._meta]: the ordered [field_list], the designated id field
    [(name, descriptor)], [ignore_none_field], and the class attribute
    [collection_name]. *)
Record Meta : Type := mkMeta {
  field_list : list Field;
  meta_id : option (string * Field);
  ignore_none_field : bool;
  collection_name : string
}.

Definition field_names (meta : Meta) : list string := map f_name (field_list meta).

(** [key in self._meta.field_list] *)
Definition is_declared (meta : Meta) (k : string) : bool :=
  existsb (String.eqb k) (field_names meta).

(** A model instance: its instance [__dict__] and its [_field_changed] log. *)
Record Model : Type := mkModel {
  attrs : dict;
  field_changed : list string
}.

(** Exceptions raised by the engine. *)
Inductive exn : Type :=
| TypeError
| FieldError (msg : string)                 (* raised by a field descriptor *)
| ModelSerializingWrappedError (self : Model) (path : list string) (cause : exn)
| InvalidKey (msg : string).

Definition result (A : Type) : Type := (exn + A)%type.

(** [getattr(self, name)]: the instance attribute, else the class default of
    [Model] ([id = None], [_key = None], [parent = ""], [_update_doc = None]);
    field names have no class attribute left by the metaclass and read as
    [None] until assigned. *)
Definition getattr (m : Model) (name : string) : pyval :=
  match Dict.get (attrs m) name with
  | Some v => v
  | None => if String.eqb name "parent" then VStr "" else VNone
  end.

(** [Model.__setattr__] (lines 458-462): a declared field name is appended to
    the changed-fields log, then the attribute is stored. *)
Definition setattr (meta : Meta) (m : Model) (k : string) (v : pyval) : Model :=
  {| attrs := Dict.set (attrs m) k v;
     field_changed :=
       if is_declared meta k then field_changed m ++ [k] else field_changed m |}.

(** [Model._set_orig_attr] (lines 464-466): store without tracking. *)
Definition set_orig_attr (m : Model) (k : string) (v : pyval) : Model :=
  {| attrs := Dict.set (attrs m) k v; field_changed := field_changed m |}.

(** Modelled from the spec: [self._meta.get_field_by_column_name(k)]
    ([ModelMeta.get_field_by_column_name]) is not in
    the sources; the spec describes it as the lookup of the field whose
    storage column name is [k], [None] when there is none. *)
Fixpoint get_field_by_column_name (fs : list Field) (k : string) : option Field :=
  match fs with
  | [] => None
  | f :: t => if String.eqb (f_column f) k then Some f else get_field_by_column_name t k
  end.

(** [fields.IDField()] as created by [update] for a model without id field. *)
Definition id_field_default : Field := mkField "id" "id" KId.

Section Engine.
(** [field.get_value(value, ignore_required, ignore_default, changed_only)]:
    the storage value, or the exception the descriptor raises. *)
Variable get_value : Field -> pyval -> bool -> bool -> bool -> result pyval.
(** [field.field_value(storage_value, owner)]. *)
Variable field_value : Field -> pyval -> pyval.
(** [field.get_value(value)] of the id field ([IDField]), read by [_id];
    taken total here. *)
Variable id_get_value : Field -> pyval -> pyval.

Variable meta : Meta.

(** The loop of [Model.to_db_dict] (lines 174-187). *)
Fixpoint to_db_dict_loop (m : Model) (ir idf co : bool) (fs : list Field) (acc : dict)
  : result dict :=
  match fs with
  | [] => inr acc
  | f :: fs' =>
      if co && negb (existsb (String.eqb (f_name f)) (field_changed m))
      then to_db_dict_loop m ir idf co fs' acc
      else
        match get_value f (getattr m (f_name f)) ir idf co with
        | inl err => inl (ModelSerializingWrappedError m [f_name f] err)
        | inr value =>
            let acc' :=
              if negb (is_none value) || negb (ignore_none_field meta)
              then Dict.set acc (f_column f) value else acc in
            to_db_dict_loop m ir idf co fs' acc'
        end
  end.

(** [Model.to_db_dict(ignore_required, ignore_default, changed_only)] *)
Definition to_db_dict (m : Model) (ir idf co : bool) : result dict :=
  to_db_dict_loop m ir idf co (field_list meta) [].

(** [Model.populate_from_doc_dict(doc_dict)] (lines 191-200). *)
Fixpoint populate_from_doc_dict (m : Model) (doc : dict) : Model :=
  match doc with
  | [] => m
  | (k, v) :: t =>
      match get_field_by_column_name (field_list meta) k with
      | None => populate_from_doc_dict m t
      | Some f => populate_from_doc_dict (set_orig_attr m (f_name f) (field_value f v)) t
      end
  end.

(** The loop of [Model._get_fields(changed_only)] (lines 233-243). *)
Fixpoint get_fields_loop (m : Model) (co : bool) (fs : list Field) (acc : dict) : dict :=
  match fs with
  | [] => acc
  | f :: fs' =>
      let v := getattr m (f_name f) in
      if negb co || existsb (String.eqb (f_name f)) (field_changed m)
         || (is_map_field f && negb (is_none v))
      then get_fields_loop m co fs' (Dict.set acc (f_name f) v)
      else get_fields_loop m co fs' acc
  end.

Definition get_fields (m : Model) (co : bool) : dict :=
  get_fields_loop m co (field_list meta) [].

(** Getter of the [_id] property (lines 245-272). *)
Definition id_get (m : Model) : pyval :=
  match meta_id meta with
  | None => VNone
  | Some (name, f) => id_get_value f (getattr m name)
  end.

(** [k[1:] if k[0] == '/' else k] (the joined key is never empty). *)
Definition strip_sep (k : string) : string :=
  match k with
  | String c r => if Ascii.eqb c "/"%char then r else k
  | EmptyString => k
  end.

(** The [key] property (lines 310-321).  [_key] is only ever assigned a
    string, by [_set_key]; the [TypeError] of the [except] branch escapes
    when [parent] is not a string. *)
Definition computed_key (m : Model) : result string :=
  match getattr m "parent" with
  | VStr p =>
      let k := match id_get m with
               | VStr i => join_slash [p; collection_name meta; i]
               | _ => join_slash [p; collection_name meta; temp_doc_id]
               end in
      inr (strip_sep k)
  | _ => inl TypeError
  end.

Definition key (m : Model) : result string :=
  match getattr m "_key" with
  | VStr s => if negb (String.eqb s "") then inr s else computed_key m
  | _ => computed_key m
  end.

(** [Model._set_key(doc_id)] (lines 323-329); [self._key = ...] goes
    through [__setattr__]. *)
Definition set_key (m : Model) (doc_id : string) : result Model :=
  match getattr m "parent" with
  | VStr p =>
      inr (setattr meta m "_key"
             (VStr (strip_sep (join_slash [p; collection_name meta; doc_id]))))
  | _ => inl TypeError
  end.

(** The name the id is stored under: the id field's, else [id]. *)
Definition id_name : string :=
  match meta_id meta with
  | Some (name, _) => name
  | None => "id"
  end.

(** [self._id = doc_id]: [Model.__setattr__] on ["_id"], then the
    property setter (lines 274-308). *)
Definition set_id (m : Model) (doc_id : pyval) : result Model :=
  let m0 := {| attrs := attrs m;
               field_changed := if is_declared meta "_id"
                                then field_changed m ++ ["_id"] else field_changed m |} in
  let m1 := setattr meta m0 id_name doc_id in
  if truthy doc_id then
    match doc_id with
    | VStr s => set_key m1 s
    | _ => inl TypeError
    end
  else inr m1.

(** [Model.to_dict()] (lines 162-170). *)
Definition to_dict (m : Model) : result dict :=
  match to_db_dict m false false false with
  | inl e => inl e
  | inr d =>
      match key m with
      | inl e => inl e
      | inr k => inr (Dict.set (Dict.set d id_name (VStr (get_id k))) "key" (VStr k))
      end
  end.

(** [{k: v for k, v in self._get_fields().items() if k in self._field_changed}] *)
Definition updated_fields (m : Model) : dict :=
  fold_left (fun acc kv =>
               if existsb (String.eqb (fst kv)) (field_changed m)
               then Dict.set acc (fst kv) (snd kv) else acc)
            (get_fields m false) [].

(** [Model.update(key)] (lines 395-456).  A successful run returns the
    (possibly mutated) meta, the instance and the keyword arguments it
    hands to [self.__class__.collection._update]. *)
(** [if key: self._update_doc = key] *)
Definition set_update_doc (m : Model) (key_arg : pyval) : Model :=
  if truthy key_arg then setattr meta m "_update_doc" key_arg else m.

Definition update (m : Model) (key_arg : pyval) : result (Meta * Model * dict) :=
  let m1 := set_update_doc m key_arg in
  let ud := getattr m1 "_update_doc" in
  let checked : result (Meta * Model) :=
    if is_none ud then
      match key m1 with
      | inl e => inl e
      | inr k =>
          if str_contains temp_doc_id k
          then inl (InvalidKey "Invalid key to update model")
          else inr (meta, m1)
      end
    else
      match ud with
      | VStr u =>
          if str_contains temp_doc_id u then inr (meta, m1)
          else
            let m2 := setattr meta m1 "parent" (VStr (get_parent_doc u)) in
            match set_id m2 (VStr (get_id u)) with
            | inl e => inl e
            | inr m3 =>
                let meta' :=
                  if is_none (id_get m3) && truthy (getattr m3 "id")
                  then {| field_list := field_list meta;
                          meta_id := Some ("id", id_field_default);
                          ignore_none_field := ignore_none_field meta;
                          collection_name := collection_name meta |}
                  else meta in
                inr (meta', m3)
            end
      | _ => inl TypeError
      end in
  match checked with
  | inl e => inl e
  | inr (meta', m') => inr (meta', m', updated_fields m')
  end.
End Engine.

(** The step of the comprehension in [updated_fields]: keep a pair whose
    name is in the changed-fields log. *)
Definition keep_logged (log : list string) (acc : dict) (kv : string * pyval) : dict :=
  if existsb (String.eqb (fst kv)) log then Dict.set acc (fst kv) (snd kv) else acc.

(** ** [remove_none_field] (utils.py, lines 89-109) *)

Fixpoint remove_none_field (values : pyval) : pyval :=
  match values with
  | VList l => VList (map remove_none_field l)
  | VDict d =>
      VDict ((fix go (d : list (string * pyval)) (result : dict) : dict :=
                match d with
                | [] => result
                | (k, v) :: t =>
                    if is_none v then go t result
                    else
                      let v' := match v with
                                | VDict _ | VList _ => remove_none_field v
                                | _ => v
                                end in
                      go t (Dict.set result k v')
                end) d [])
  | _ => values
  end.

(** The loop over the items of a dict in [remove_none_field]. *)
Fixpoint rnf_items (d : list (string * pyval)) (result : dict) : dict :=
  match d with
  | [] => result
  | (k, v) :: t =>
      if is_none v then rnf_items t result
      else
        let v' := match v with
                  | VDict _ | VList _ => remove_none_field v
                  | _ => v
                  end in
        rnf_items t (Dict.set result k v')
  end.

(** A dictionary, at any depth through dicts and lists, has no key whose
    value is [None]. *)
Fixpoint none_free (v : pyval) : bool :=
  match v with
  | VList l =>
      (fix go (l : list pyval) : bool :=
         match l with [] => true | x :: t => none_free x && go t end) l
  | VDict d =>
      (fix go (d : list (string * pyval)) : bool :=
         match d with
         | [] => true
         | (_, x) :: t => negb (is_none x) && none_free x && go t
         end) d
  | _ => true
  end.

(** ** More of [fireo/utils/utils.py] *)

(** [ref_path(key)] (lines 10-11): [key.split('/')] *)
Definition ref_path (key : string) : list string := split_slash key.

(** [collection_path(key)] (lines 14-15): ['/'.join(key.split('/')[:-1])] *)
Definition collection_path (key : string) : string :=
  join_slash (removelast (split_slash key)).

(** [get_parent(key)] (lines 18-19) *)
Definition get_parent (key : string) : string := collection_path key.

(** [generateKeyFromId(model, id)] (lines 81-82) *)
Definition generateKeyFromId (meta : Meta) (id : string) : string :=
  collection_name meta ++ "/" ++ id.

(** [isKey(str)] (lines 85-86): ["/" in str] *)
Definition isKey (s : string) : bool := str_contains "/" s.

(** The arguments [join_keys] is called with: [None], booleans, integers
    and strings. *)
Inductive key_arg : Type :=
| KNone
| KBool (b : bool)
| KInt (z : Z)
| KStr (s : string).

(** [str(arg)] *)
Definition py_str (a : key_arg) : string :=
  match a with
  | KNone => "None"
  | KBool true => "True"
  | KBool false => "False"
  | KInt z => NilZero.string_of_int (Z.to_int z)
  | KStr s => s
  end.

(** [join_keys(first_arg, *args)] (lines 45-59); [isinstance(arg, int)]
    also holds for a boolean. *)
Definition join_keys (first_arg : key_arg) (args : list key_arg) : string :=
  fold_left (fun (result : string) arg =>
               match arg with
               | KInt _ | KBool _ => (result ++ "[" ++ py_str arg ++ "]")%string
               | _ => (result ++ "." ++ py_str arg)%string
               end) args (py_str first_arg).

(** The exception [get_nested] can raise: [.get] on a value that is not a
    dict. *)
Inductive util_error : Type := AttributeError.

(** [get_nested(dict, *args)] (lines 37-42), the path given as strings;
    the implicit [return None] of Python is [inr VNone]. *)
Fixpoint get_nested (d : pyval) (args : list string) : util_error + pyval :=
  match args with
  | [] => inr VNone
  | element :: rest =>
      if truthy d then
        if String.eqb element "" then inr VNone
        else
          match d with
          | VDict items =>
              let value := match Dict.get items element with
                           | Some v => v
                           | None => VNone
                           end in
              match rest with
              | [] => inr value
              | _ => get_nested value rest
              end
          | _ => inl AttributeError
          end
      else inr VNone
  end.

(** [flat_dict.update(other)] *)
Definition dict_update (flat other : dict) : dict :=
  fold_left (fun acc kv => Dict.set acc (fst kv) (snd kv)) other flat.

(** [f'{prefix}.{key}' if prefix else key] *)
Definition prefixed (prefix key : string) : string :=
  if String.eqb prefix "" then key else prefix ++ "." ++ key.

(** [get_flat_dict(value, prefix)] (lines 62-78) on a value that is a dict;
    a [None] prefix is the empty string (both are falsy). *)
Fixpoint flat_value (v : pyval) (prefix : string) : dict :=
  match v with
  | VDict d =>
      (fix go (d : list (string * pyval)) (flat : dict) : dict :=
         match d with
         | [] => flat
         | (key, value) :: t =>
             let key' := prefixed prefix key in
             match value with
             | VDict _ => go t (dict_update flat (flat_value value key'))
             | _ => go t (Dict.set flat key' value)
             end
         end) d []
  | _ => []
  end.

Definition get_flat_dict (d : dict) (prefix : string) : dict := flat_value (VDict d) prefix.

Section FlatItems.
Variable prefix : string.

(** The loop of [get_flat_dict] over the items of the dict. *)
Fixpoint flat_items (d : list (string * pyval)) (flat : dict) : dict :=
  match d with
  | [] => flat
  | (key, value) :: t =>
      let key' := prefixed prefix key in
      match value with
      | VDict _ => flat_items t (dict_update flat (flat_value value key'))
      | _ => flat_items t (Dict.set flat key' value)
      end
  end.
End FlatItems.

(** ['.'.join(path)] *)
Fixpoint join_dot (path : list string) : string :=
  match path with
  | [] => EmptyString
  | [p] => p
  | p :: t => p ++ "." ++ join_dot t
  end.

(** No string occurs twice. *)
Fixpoint nodup_strings (l : list string) : bool :=
  match l with
  | [] => true
  | x :: t => negb (existsb (String.eqb x) t) && nodup_strings t
  end.

(** Every dict reached through dicts has distinct, non-empty keys. *)
Fixpoint well_keyed (v : pyval) : bool :=
  match v with
  | VDict d =>
      nodup_strings (map fst d) &&
      (fix go (d : list (string * pyval)) : bool :=
         match d with
         | [] => true
         | (k, x) :: t => negb (String.eqb k "") && well_keyed x && go t
         end) d
  | _ => true
  end.

(** ['A' <= c <= 'Z'], the class [[A-Z]] of the regex. *)
Definition is_upper (c : ascii) : bool :=
  let n := nat_of_ascii c in (65 <=? n)%nat && (n <=? 90)%nat.

(** [str.lower()] on one character, read as a Latin-1 code point: the
    uppercase letters U+0041..U+005A and U+00C0..U+00DE (but U+00D7) move
    up by 0x20. *)
Definition lower_char (c : ascii) : ascii :=
  let n := nat_of_ascii c in
  if is_upper c || ((192 <=? n)%nat && (n <=? 222)%nat && negb (n =? 215)%nat)
  then ascii_of_nat (n + 32) else c.

Fixpoint lower (s : string) : string :=
  match s with
  | EmptyString => EmptyString
  | String c r => String (lower_char c) (lower r)
  end.

(** [re.sub('(?!^)([A-Z]+)', r'_\1', s)] after the first character: each
    maximal run of [[A-Z]] gets a ['_'] before it. *)
Fixpoint sub_upper_runs (in_run : bool) (s : string) : string :=
  match s with
  | EmptyString => EmptyString
  | String c r =>
      if is_upper c then
        if in_run then String c (sub_upper_runs true r)
        else String "_" (String c (sub_upper_runs true r))
      else String c (sub_upper_runs false r)
  end.

(** [collection_name(model)] (lines 6-7); named apart from the field
    [collection_name] of [Meta].  The lookahead [(?!^)] fails only at
    position 0, so a run may start at position 1. *)
Definition collection_name_of (model : string) : string :=
  lower (match model with
         | EmptyString => EmptyString
         | String c r => String c (sub_upper_runs false r)
         end).

(** ** More of [Model] *)

(** [Model.save(transaction, batch, merge, no_return)] (lines 354-387): the
    instance, the [merge] flag and the keyword arguments handed to
    [collection.create]. *)
Definition save (meta : Meta) (m : Model) (merge : pyval) : Model * pyval * dict :=
  (m, merge, get_fields meta m (truthy merge)).

(** [Model.upsert(transaction, batch)] (lines 389-393). *)
Definition upsert (meta : Meta) (m : Model) : Model * pyval * dict :=
  save meta m (VBool true).

Definition is_nested_field (f : Field) : bool :=
  match f_kind f with KNested => true | _ => false end.

(** The outcomes of a failed construction: the model is abstract; an
    [AttributeError] (assigning the read-only property [key]); an exception
    of the [_id] setter; or a keyword argument that replaces what the model
    keeps outside the instance attributes ([_meta], [_field_changed],
    [collection_name], the method [_set_key]), whose later uses are not
    represented. *)
Inductive init_error : Type :=
| AbstractNotInstantiate
| InitAttributeError
| InitRaised (e : exn)
| InitUnmodelled (name : string).

(** The keyword arguments that [__init__] stores as plain attributes. *)
Definition plain_kwarg (k : string) : bool :=
  negb (existsb (String.eqb k)
          ["key"; "_id"; "_meta"; "_field_changed"; "collection_name"; "_set_key"]).

Section Construction.
Variable meta : Meta.
(** [f.nested_model()]: a fresh nested instance, as the value stored. *)
Variable nested_instance : Field -> pyval.
(** [f.nested_model.from_dict(d)] *)
Variable nested_from_dict : Field -> pyval -> pyval.
Variable field_value : Field -> pyval -> pyval.

(** One step of the loop over the fields in [__init__] (lines 141-150). *)
Definition init_nested (kwargs : dict) (m : Model) (f : Field) : Model :=
  if is_nested_field f then
    match Dict.get kwargs (f_name f) with
    | None => setattr meta m (f_name f) (nested_instance f)
    | Some (VDict d) => setattr meta m (f_name f) (nested_from_dict f (VDict d))
    | Some _ => m
    end
  else m.

(** [setattr(self, k, v)] for one keyword argument of [__init__]
    (lines 136-137): [key] is a property without a setter, so assigning it
    raises; [_id] runs the property setter. *)
Definition init_setattr (m : Model) (k : string) (v : pyval) : init_error + Model :=
  if String.eqb k "key" then inl InitAttributeError
  else if String.eqb k "_id" then
    match set_id meta m v with
    | inl e => inl (InitRaised e)
    | inr m' => inr m'
    end
  else if plain_kwarg k then inr (setattr meta m k v)
  else inl (InitUnmodelled k).

(** The loop over the keyword arguments (lines 136-137). *)
Fixpoint init_kwargs (m : Model) (kwargs : dict) : init_error + Model :=
  match kwargs with
  | [] => inr m
  | (k, v) :: t =>
      match init_setattr m k v with
      | inl e => inl e
      | inr m' => init_kwargs m' t
      end
  end.

(** [Model.__init__] with keyword arguments (lines 126-150); [is_abstract] is
    [self._meta.abstract]. *)
Definition model_init (is_abstract : bool) (kwargs : dict) : init_error + Model :=
  if is_abstract then inl AbstractNotInstantiate
  else
    match init_kwargs (mkModel [] []) kwargs with
    | inl e => inl e
    | inr m => inr (fold_left (init_nested kwargs) (field_list meta) m)
    end.

(** [Model.from_dict(model_dict)] (lines 152-160). *)
Definition from_dict (is_abstract : bool) (doc : option dict) : init_error + option Model :=
  match doc with
  | None => inr None
  | Some d =>
      match model_init is_abstract [] with
      | inl e => inl e
      | inr m => inr (Some (populate_from_doc_dict field_value meta m d))
      end
  end.
End Construction.

(** The nested-model fields that [__init__] assigns itself: those not
    passed, and those passed as a dict. *)
Definition logs_nested (kwargs : dict) (f : Field) : bool :=
  is_nested_field f &&
  match Dict.get kwargs (f_name f) with
  | None | Some (VDict _) => true
  | Some _ => false
  end.

(** ** Sample schemas and descriptors, used to run the definitions *)

Module Sample.
Definition f_name_ := mkField "name" "name" KScalar.
Definition f_data := mkField "data" "data" KMap.
Definition f_uid := mkField "uid" "uid" KId.
(** [class User(Model): name = TextField(); data = MapField()] *)
Definition user_meta := mkMeta [f_name_; f_data] None false "user".
(** [class User(Model): uid = IDField(); name = TextField(); data = MapField()];
    the id field is designated in [_meta.id], not listed among the stored fields. *)
Definition user_id_meta := mkMeta [f_name_; f_data] (Some ("uid", f_uid)) false "user".
(** Descriptors that store values as they are. *)
Definition gv_plain (f : Field) (v : pyval) (ir idf co : bool) : result pyval := inr v.
Definition fv_plain (f : Field) (v : pyval) : pyval := v.
Definition id_plain (f : Field) (v : pyval) : pyval := v.
(** A required [name]: [None] is refused. *)
Definition gv_required (f : Field) (v : pyval) (ir idf co : bool) : result pyval :=
  if String.eqb (f_name f) "name" && is_none v then inl (FieldError "name is required")
  else inr v.
Definition empty : Model := mkModel [] [].
End Sample.

(** ** Generic lemmas *)

Lemma existsb_eqb_In (x : string) (l : list string) :
  existsb (String.eqb x) l = true <-> In x l.
Proof.
  rewrite existsb_exists. split.
  - intros [y [Hy Heq]]. apply String.eqb_eq in Heq. subst. exact Hy.
  - intros H. exists x. split; [exact H | apply String.eqb_refl].
Qed.

Lemma Dict_get_set_eq {A} (d : list (string * A)) k v :
  Dict.get (Dict.set d k v) k = Some v.
Proof.
  induction d as [|[k' v'] t IH]; simpl.
  - rewrite String.eqb_refl. reflexivity.
  - destruct (String.eqb k k') eqn:E; simpl.
    + rewrite E. reflexivity.
    + rewrite E. exact IH.
Qed.

Lemma Dict_get_set_neq {A} (d : list (string * A)) k k' v :
  k <> k' -> Dict.get (Dict.set d k v) k' = Dict.get d k'.
Proof.
  intros Hne. induction d as [|[k0 v0] t IH]; simpl.
  - destruct (String.eqb k' k) eqn:E; [apply String.eqb_eq in E; congruence | reflexivity].
  - destruct (String.eqb k k0) eqn:E; simpl.
    + apply String.eqb_eq in E. subst k0.
      destruct (String.eqb k' k) eqn:E'; [apply String.eqb_eq in E'; congruence | reflexivity].
    + rewrite IH. reflexivity.
Qed.

Lemma Dict_In_set_inv {A} (d : list (string * A)) k v c w :
  In (c, w) (Dict.set d k v) -> (c = k /\ w = v) \/ In (c, w) d.
Proof.
  induction d as [|[k0 v0] t IH]; simpl.
  - intros [H|[]]. inversion H. left. auto.
  - destruct (String.eqb k k0) eqn:E; simpl.
    + apply String.eqb_eq in E. subst k0.
      intros [H|H]; [inversion H; left; auto | right; right; exact H].
    + intros [H|H]; [right; left; exact H|].
      destruct (IH H) as [H'|H']; [left; exact H' | right; right; exact H'].
Qed.

Lemma Dict_In_set_key {A} (d : list (string * A)) k v :
  exists w, In (k, w) (Dict.set d k v).
Proof.
  induction d as [|[k0 v0] t IH]; simpl.
  - exists v. left. reflexivity.
  - destruct (String.eqb k k0) eqn:E.
    + apply String.eqb_eq in E. subst k0. exists v. left. reflexivity.
    + destruct IH as [w Hw]. exists w. right. exact Hw.
Qed.

Lemma Dict_In_set_keep {A} (d : list (string * A)) k v c w :
  In (c, w) d -> exists w', In (c, w') (Dict.set d k v).
Proof.
  induction d as [|[k0 v0] t IH]; simpl; [intros []|].
  intros [H|H].
  - inversion H; subst. destruct (String.eqb k c) eqn:E.
    + exists v. left. apply String.eqb_eq in E. subst. reflexivity.
    + exists w. left. reflexivity.
  - destruct (String.eqb k k0).
    + exists w. right. exact H.
    + destruct (IH H) as [w' Hw']. exists w'. right. exact Hw'.
Qed.

Lemma Dict_set_new {A} (d : list (string * A)) k v :
  ~ In k (map fst d) -> Dict.set d k v = d ++ [(k, v)].
Proof.
  induction d as [|[k0 v0] t IH]; simpl; [reflexivity|].
  intros Hn. destruct (String.eqb k k0) eqn:E.
  - apply String.eqb_eq in E. subst. exfalso. apply Hn. left. reflexivity.
  - rewrite IH; [reflexivity|]. intros H. apply Hn. right. exact H.
Qed.

Lemma getattr_setattr_eq meta m k v : getattr (setattr meta m k v) k = v.
Proof. unfold getattr. simpl. rewrite Dict_get_set_eq. reflexivity. Qed.

Lemma getattr_setattr_neq meta m k k' v :
  k <> k' -> getattr (setattr meta m k v) k' = getattr m k'.
Proof. intros H. unfold getattr. simpl. rewrite Dict_get_set_neq by exact H. reflexivity. Qed.

Lemma getattr_same_attrs m fc n : getattr (mkModel (attrs m) fc) n = getattr m n.
Proof. reflexivity. Qed.

(** ** Change tracking *)

(** C8: [__setattr__] appends the name to the changed-fields log exactly once
    when the name is a declared field, whatever the value, and appends
    nothing for any other attribute; the value is stored in both cases. *)
Theorem setattr_tracks_declared_fields (meta : Meta) (m : Model) (k : string) (v : pyval) :
  (In k (field_names meta) ->
     field_changed (setattr meta m k v) = field_changed m ++ [k]) /\
  (~ In k (field_names meta) ->
     field_changed (setattr meta m k v) = field_changed m) /\
  getattr (setattr meta m k v) k = v.
Proof.
  unfold setattr, is_declared. simpl. split; [|split].
  - intros H. apply existsb_eqb_In in H. rewrite H. reflexivity.
  - intros H. destruct (existsb (String.eqb k) (field_names meta)) eqn:E; [|reflexivity].
    apply existsb_eqb_In in E. contradiction.
  - apply getattr_setattr_eq.
Qed.

Lemma populate_field_changed_eq fv meta (m : Model) (doc : dict) :
  field_changed (populate_from_doc_dict fv meta m doc) = field_changed m.
Proof.
  revert m. induction doc as [|[k v] t IH]; intros m; simpl; [reflexivity|].
  destruct (get_field_by_column_name (field_list meta) k) as [f|].
  - rewrite IH. reflexivity.
  - apply IH.
Qed.

(** C5 (counterexample): hydrating an instance whose [name] was assigned
    leaves ["name"] in the changed-fields log. *)
Lemma populate_keeps_earlier_assignments :
  let m := setattr Sample.user_meta Sample.empty "name" (VStr "a") in
  field_changed m = ["name"] /\
  field_changed (populate_from_doc_dict Sample.fv_plain Sample.user_meta m
                   [("name", VStr "b")]) = ["name"].
Proof. split; reflexivity. Qed.

(** C5 (amended): [populate_from_doc_dict] leaves the changed-fields log
    exactly as it was: hydration appends nothing and removes nothing. *)
Theorem populate_preserves_field_changed fv meta (m : Model) (doc : dict) :
  field_changed (populate_from_doc_dict fv meta m doc) = field_changed m.
Proof. apply populate_field_changed_eq. Qed.

(** ** Serialization errors *)

Lemma to_db_dict_loop_error gv meta m ir idf co fs acc e :
  to_db_dict_loop gv meta m ir idf co fs acc = inl e ->
  exists pre f post cause,
    fs = pre ++ f :: post /\
    gv f (getattr m (f_name f)) ir idf co = inl cause /\
    e = ModelSerializingWrappedError m [f_name f] cause /\
    (forall g, In g pre ->
       (co = true /\ ~ In (f_name g) (field_changed m)) \/
       exists v, gv g (getattr m (f_name g)) ir idf co = inr v).
Proof.
  revert acc. induction fs as [|f fs IH]; intros acc; simpl; [discriminate|].
  destruct (co && negb (existsb (String.eqb (f_name f)) (field_changed m))) eqn:Eskip.
  - intros H. destruct (IH _ H) as (pre & g & post & cause & Hfs & Hg & He & Hpre).
    exists (f :: pre), g, post, cause. subst. repeat split; auto.
    intros g' [<-|Hin]; [|auto].
    left. apply andb_true_iff in Eskip as [Hco Hn]. split; [exact Hco|].
    rewrite <- existsb_eqb_In. destruct existsb; [discriminate | auto].
  - destruct (gv f (getattr m (f_name f)) ir idf co) as [err|value] eqn:Egv.
    + intros H. inversion H; subst. exists [], f, fs, err. repeat split; auto.
    + intros H. destruct (IH _ H) as (pre & g & post & cause & Hfs & Hg & He & Hpre).
      exists (f :: pre), g, post, cause. subst. repeat split; auto.
      intros g' [<-|Hin]; [right; exists value; exact Egv | auto].
Qed.

Lemma to_db_dict_loop_reaches gv meta m ir idf co pre f post acc cause :
  (forall g, In g pre ->
     (co = true /\ ~ In (f_name g) (field_changed m)) \/
     exists v, gv g (getattr m (f_name g)) ir idf co = inr v) ->
  (co = false \/ In (f_name f) (field_changed m)) ->
  gv f (getattr m (f_name f)) ir idf co = inl cause ->
  to_db_dict_loop gv meta m ir idf co (pre ++ f :: post) acc =
    inl (ModelSerializingWrappedError m [f_name f] cause).
Proof.
  intros Hpre Hf Hc. revert acc. induction pre as [|g pre IH]; intros acc; simpl.
  - replace (co && negb (existsb (String.eqb (f_name f)) (field_changed m))) with false.
    + rewrite Hc. reflexivity.
    + destruct Hf as [->|Hin]; [reflexivity|].
      apply existsb_eqb_In in Hin. rewrite Hin, andb_false_r. reflexivity.
  - assert (IH' := IH (fun g' Hg' => Hpre g' (or_intror Hg'))).
    destruct (co && negb (existsb (String.eqb (f_name g)) (field_changed m))) eqn:Eskip;
      [apply IH'|].
    destruct (Hpre g (or_introl eq_refl)) as [[Hco Hn]|[v Hv]].
    + exfalso. subst co. simpl in Eskip. apply negb_false_iff, existsb_eqb_In in Eskip.
      contradiction.
    + rewrite Hv. apply IH'.
Qed.

(** C7: when [to_db_dict] fails, the error is one
    [ModelSerializingWrappedError] whose path is the single name of the
    field whose coercion failed and whose cause is that field's own
    exception; the fields before it were skipped or coerced without error,
    and no later field is coerced.  Conversely, when the fields before a
    field are skipped or coerced and that field (not skipped) fails its
    coercion, [to_db_dict] catches the exception and re-raises it as that
    single wrapped error. *)
Theorem to_db_dict_error_names_one_field gv meta m ir idf co :
  (forall e,
     to_db_dict gv meta m ir idf co = inl e ->
     exists pre f post cause,
       field_list meta = pre ++ f :: post /\
       gv f (getattr m (f_name f)) ir idf co = inl cause /\
       e = ModelSerializingWrappedError m [f_name f] cause /\
       (forall g, In g pre ->
          (co = true /\ ~ In (f_name g) (field_changed m)) \/
          exists v, gv g (getattr m (f_name g)) ir idf co = inr v)) /\
  (forall pre f post cause,
     field_list meta = pre ++ f :: post ->
     (forall g, In g pre ->
        (co = true /\ ~ In (f_name g) (field_changed m)) \/
        exists v, gv g (getattr m (f_name g)) ir idf co = inr v) ->
     (co = false \/ In (f_name f) (field_changed m)) ->
     gv f (getattr m (f_name f)) ir idf co = inl cause ->
     to_db_dict gv meta m ir idf co = inl (ModelSerializingWrappedError m [f_name f] cause)).
Proof.
  split.
  - intros e. apply to_db_dict_loop_error.
  - intros pre f post cause Hfs Hpre Hf Hc. unfold to_db_dict. rewrite Hfs.
    apply to_db_dict_loop_reaches; assumption.
Qed.

(** C7 at a sample: a [User] without [name] fails on [name] alone. *)
Lemma to_db_dict_error_names_one_field_witness :
  to_db_dict Sample.gv_required Sample.user_meta Sample.empty false false false =
    inl (ModelSerializingWrappedError Sample.empty ["name"] (FieldError "name is required")).
Proof.
  apply (proj2 (to_db_dict_error_names_one_field Sample.gv_required Sample.user_meta
                  Sample.empty false false false) [] Sample.f_name_ [Sample.f_data]).
  - reflexivity.
  - intros g [].
  - left. reflexivity.
  - reflexivity.
Defined.

(** ** Update routing *)

(** The branch of [update] the claim is about: no update-doc key, and the
    instance's key carries the placeholder, raises [InvalidKey]. *)
Lemma update_rejects_placeholder_key igv meta m ka k :
  getattr (set_update_doc meta m ka) "_update_doc" = VNone ->
  key igv meta (set_update_doc meta m ka) = inr k ->
  str_contains temp_doc_id k = true ->
  update igv meta m ka = inl (InvalidKey "Invalid key to update model").
Proof.
  intros Hud Hk Hc. unfold update. cbv zeta. rewrite Hud. simpl.
  rewrite Hk, Hc. reflexivity.
Qed.

(** C1 (code_bug): when the update-doc key in effect (passed to [update] or
    set before) contains ["@temp_doc_id"], neither branch of [update] is
    taken: no [InvalidKey] is raised and the changed fields are handed to
    the manager's [_update]. *)
Theorem update_forwards_placeholder_update_doc igv meta m ka u :
  getattr (set_update_doc meta m ka) "_update_doc" = VStr u ->
  str_contains temp_doc_id u = true ->
  update igv meta m ka =
    inr (meta, set_update_doc meta m ka, updated_fields meta (set_update_doc meta m ka)).
Proof.
  intros Hud Hc. unfold update. cbv zeta. rewrite Hud. simpl. rewrite Hc. reflexivity.
Qed.

(** C1 at the failing input [user.update("user/@temp_doc_id")]. *)
Lemma update_forwards_placeholder_update_doc_witness :
  update Sample.id_plain Sample.user_meta Sample.empty (VStr "user/@temp_doc_id") =
    inr (Sample.user_meta,
         set_update_doc Sample.user_meta Sample.empty (VStr "user/@temp_doc_id"),
         updated_fields Sample.user_meta
           (set_update_doc Sample.user_meta Sample.empty (VStr "user/@temp_doc_id"))).
Proof.
  apply (update_forwards_placeholder_update_doc Sample.id_plain Sample.user_meta Sample.empty
           (VStr "user/@temp_doc_id") "user/@temp_doc_id"); vm_compute; reflexivity.
Defined.

(** ** String lemmas for keys *)

Lemma str_app_assoc (a b c : string) : ((a ++ b) ++ c = a ++ (b ++ c))%string.
Proof. induction a as [|x a IH]; simpl; [reflexivity | rewrite IH; reflexivity]. Qed.

Lemma join_slash_3 p c s : join_slash [p; c; s] = (p ++ "/" ++ c ++ "/" ++ s)%string.
Proof. reflexivity. Qed.

Lemma strip_sep_join_nonempty p c s : strip_sep (join_slash [p; c; s]) <> "".
Proof.
  rewrite join_slash_3. destruct p as [|x r]; simpl; [destruct c; discriminate|].
  destruct (Ascii.eqb x "/"%char); [destruct r; discriminate | discriminate].
Qed.

Lemma strip_sep_app (y z : string) :
  y <> "" -> exists y', strip_sep (y ++ z)%string = (y' ++ z)%string.
Proof.
  destruct y as [|x r]; [congruence|]. intros _. simpl.
  destruct (Ascii.eqb x "/"%char); [exists r | exists (String x r)]; reflexivity.
Qed.

Lemma split_slash_nonnil s : split_slash s <> [].
Proof.
  destruct s as [|x r]; simpl; [discriminate|].
  destruct (Ascii.eqb x "/"%char); [discriminate|].
  destruct (split_slash r); discriminate.
Qed.

Lemma split_slash_app_sep x y :
  split_slash (x ++ "/" ++ y)%string = split_slash x ++ split_slash y.
Proof.
  induction x as [|c r IH]; [reflexivity|].
  simpl. simpl in IH. rewrite IH. destruct (Ascii.eqb c "/"%char); [reflexivity|].
  destruct (split_slash r) as [|h t] eqn:E; [exfalso; exact (split_slash_nonnil r E)|].
  reflexivity.
Qed.

Lemma last_app_nonnil {A} (l l' : list A) d : l' <> [] -> last (l ++ l') d = last l' d.
Proof.
  intros Hl. induction l as [|a l IH]; [reflexivity|].
  simpl. rewrite IH. destruct l as [|b l]; simpl.
  - destruct l'; [congruence | reflexivity].
  - destruct (l ++ l') eqn:E; [apply app_eq_nil in E as [_ E]; congruence | reflexivity].
Qed.

Lemma str_contains_app_r n s1 s2 :
  str_contains n s2 = true -> str_contains n (s1 ++ s2)%string = true.
Proof.
  intros H. induction s1 as [|c r IH]; [exact H|].
  simpl. rewrite IH. apply orb_true_r.
Qed.

Lemma temp_key_shape p c :
  exists y, strip_sep (join_slash [p; c; temp_doc_id]) = (y ++ "/" ++ temp_doc_id)%string.
Proof.
  rewrite join_slash_3.
  replace (p ++ "/" ++ c ++ "/" ++ temp_doc_id)%string with ((p ++ "/" ++ c) ++ "/" ++ temp_doc_id)%string
    by (rewrite !str_app_assoc; reflexivity).
  apply strip_sep_app. destruct p; discriminate.
Qed.

Lemma get_id_temp_key p c : get_id (strip_sep (join_slash [p; c; temp_doc_id])) = temp_doc_id.
Proof.
  destruct (temp_key_shape p c) as [y ->]. unfold get_id.
  rewrite split_slash_app_sep, last_app_nonnil by discriminate. reflexivity.
Qed.

Lemma contains_temp_key p c :
  str_contains temp_doc_id (strip_sep (join_slash [p; c; temp_doc_id])) = true.
Proof.
  destruct (temp_key_shape p c) as [y ->].
  apply str_contains_app_r. apply (str_contains_app_r _ "/"). reflexivity.
Qed.

Lemma key_unfixed_eq igv meta m p :
  (getattr m "_key" = VNone \/ getattr m "_key" = VStr "") ->
  getattr m "parent" = VStr p ->
  key igv meta m =
    inr (strip_sep (join_slash [p; collection_name meta;
                                match id_get igv meta m with
                                | VStr i => i
                                | _ => temp_doc_id
                                end])).
Proof.
  intros Hk Hp. unfold key.
  destruct Hk as [Hk|Hk]; rewrite Hk; simpl; unfold computed_key; rewrite Hp;
    destruct (id_get igv meta m); reflexivity.
Qed.

Lemma key_fixed igv meta m k :
  getattr m "_key" = VStr k -> k <> "" -> key igv meta m = inr k.
Proof.
  intros Hk Hne. unfold key. rewrite Hk.
  destruct (String.eqb k "") eqn:E; [apply String.eqb_eq in E; contradiction | reflexivity].
Qed.

(** ** The id property and the key *)

(** C3 (counterexample): without an id field, the [_id] getter returns
    [None] even though the bare [id] attribute holds ["abc"]. *)
Lemma id_getter_no_fallback :
  let m := setattr Sample.user_meta Sample.empty "id" (VStr "abc") in
  getattr m "id" = VStr "abc" /\ id_get Sample.id_plain Sample.user_meta m = VNone.
Proof. split; reflexivity. Qed.

(** C3 (amended): the [_id] getter reads the id field through its
    descriptor when one is declared and is [None] otherwise; the setter
    writes the id field's attribute, else the bare [id]; a non-empty id
    fixes [_key] to [parent/collection/id] (one leading separator removed),
    and [key] then returns it whatever else changes; a falsy id leaves
    [_key] as it was. *)
Theorem id_property_amended igv meta m s p :
  s <> "" ->
  getattr m "parent" = VStr p ->
  id_name meta <> "_key" ->
  id_name meta <> "parent" ->
  (meta_id meta = None -> id_get igv meta m = VNone) /\
  (forall n f, meta_id meta = Some (n, f) -> id_get igv meta m = igv f (getattr m n)) /\
  (exists m', set_id meta m (VStr s) = inr m' /\
     getattr m' (id_name meta) = VStr s /\
     getattr m' "_key" = VStr (strip_sep (join_slash [p; collection_name meta; s])) /\
     (forall m'', getattr m'' "_key" = getattr m' "_key" ->
        key igv meta m'' = inr (strip_sep (join_slash [p; collection_name meta; s])))) /\
  (forall v, truthy v = false ->
     exists m', set_id meta m v = inr m' /\
       getattr m' (id_name meta) = v /\ getattr m' "_key" = getattr m "_key").
Proof.
  intros Hs Hp Hk Hpar. split; [|split; [|split]].
  - intros H. unfold id_get. rewrite H. reflexivity.
  - intros n f H. unfold id_get. rewrite H. reflexivity.
  - unfold set_id.
    assert (Ht : truthy (VStr s) = true).
    { simpl. destruct (String.eqb s "") eqn:E; [apply String.eqb_eq in E; contradiction | reflexivity]. }
    rewrite Ht. unfold set_key.
    rewrite getattr_setattr_neq by congruence.
    rewrite getattr_same_attrs, Hp.
    eexists. split; [reflexivity|]. split; [|split].
    + rewrite getattr_setattr_neq by congruence. apply getattr_setattr_eq.
    + apply getattr_setattr_eq.
    + intros m'' H. rewrite getattr_setattr_eq in H.
      apply key_fixed; [exact H | apply strip_sep_join_nonempty].
  - intros v Hv. unfold set_id. rewrite Hv. eexists. split; [reflexivity|]. split.
    + apply getattr_setattr_eq.
    + rewrite getattr_setattr_neq by congruence. reflexivity.
Qed.

(** C3 at a sample: [User] with [uid = IDField()], [u._id = "u1"]. *)
Lemma id_property_amended_witness :
  "u1" <> "" /\ getattr Sample.empty "parent" = VStr "" /\
  id_name Sample.user_id_meta <> "_key" /\ id_name Sample.user_id_meta <> "parent" /\
  exists m', set_id Sample.user_id_meta Sample.empty (VStr "u1") = inr m' /\
     getattr m' (id_name Sample.user_id_meta) = VStr "u1" /\
     getattr m' "_key" = VStr (strip_sep (join_slash [""; "user"; "u1"])).
Proof.
  split; [discriminate|]. split; [reflexivity|].
  split; [discriminate|]. split; [discriminate|].
  destruct (id_property_amended Sample.id_plain Sample.user_id_meta Sample.empty "u1" ""
              ltac:(discriminate) eq_refl ltac:(discriminate) ltac:(discriminate))
    as (_ & _ & (m' & H1 & H2 & H3 & _) & _).
  exists m'. split; [exact H1|]. split; [exact H2 | exact H3].
Defined.

(** C4 (counterexample): a parent that starts with ['/'] loses that
    separator, so the key is not [parent + "/" + collection + "/" + id];
    the parent ["/"] gives a key that starts with a separator. *)
Lemma key_leading_separator_parent :
  let with_parent p := setattr Sample.user_id_meta
             (setattr Sample.user_id_meta Sample.empty "parent" (VStr p))
             "uid" (VStr "u1") in
  key Sample.id_plain Sample.user_id_meta (with_parent "/org/acme") = inr "org/acme/user/u1" /\
  key Sample.id_plain Sample.user_id_meta (with_parent "/") = inr "/user/u1".
Proof. split; reflexivity. Qed.

(** C4 (amended): with no fixed key, [key] is
    [parent + "/" + collection_name + "/" + id] (["@temp_doc_id"] for an
    unresolved id) with one leading separator removed: an empty parent is
    elided, and a non-empty parent that does not start with ['/'] is kept
    whole, so the key does not start with a separator. *)
Theorem key_unfixed_amended igv meta m p :
  (getattr m "_key" = VNone \/ getattr m "_key" = VStr "") ->
  getattr m "parent" = VStr p ->
  let idt := match id_get igv meta m with VStr i => i | _ => temp_doc_id end in
  key igv meta m = inr (strip_sep (p ++ "/" ++ collection_name meta ++ "/" ++ idt)%string) /\
  (p = "" -> key igv meta m = inr (collection_name meta ++ "/" ++ idt)%string) /\
  (forall c r, p = String c r -> c <> "/"%char ->
     key igv meta m = inr (p ++ "/" ++ collection_name meta ++ "/" ++ idt)%string).
Proof.
  intros Hk Hp idt. rewrite (key_unfixed_eq igv meta m p Hk Hp), join_slash_3.
  fold idt. split; [reflexivity|]. split.
  - intros ->. reflexivity.
  - intros c r -> Hc. simpl.
    destruct (Ascii.eqb c "/"%char) eqn:E; [apply Ascii.eqb_eq in E; contradiction | reflexivity].
Qed.

(** C4 at the spec's two examples. *)
Lemma key_unfixed_amended_witness :
  key Sample.id_plain Sample.user_meta Sample.empty = inr "user/@temp_doc_id" /\
  key Sample.id_plain Sample.user_id_meta
    (setattr Sample.user_id_meta
       (setattr Sample.user_id_meta Sample.empty "parent" (VStr "org/acme"))
       "uid" (VStr "u1")) = inr "org/acme/user/u1".
Proof.
  split.
  - exact (proj1 (proj2 (key_unfixed_amended Sample.id_plain Sample.user_meta Sample.empty ""
                           ltac:(left; reflexivity) eq_refl)) eq_refl).
  - exact (proj2 (proj2 (key_unfixed_amended Sample.id_plain Sample.user_id_meta
                           (setattr Sample.user_id_meta
                              (setattr Sample.user_id_meta Sample.empty "parent" (VStr "org/acme"))
                              "uid" (VStr "u1"))
                           "org/acme" ltac:(left; reflexivity) eq_refl))
             "o"%char "rg/acme" eq_refl ltac:(discriminate)).
Defined.

(** C10: with no fixed key and an unresolved id, [to_dict] (when
    [to_db_dict] succeeds) stores the literal ["@temp_doc_id"] under the id
    name and the placeholder-bearing key under ["key"]. *)
Theorem to_dict_placeholder_id gv igv meta m d p :
  (getattr m "_key" = VNone \/ getattr m "_key" = VStr "") ->
  getattr m "parent" = VStr p ->
  (forall i, id_get igv meta m <> VStr i) ->
  id_name meta <> "key" ->
  to_db_dict gv meta m false false false = inr d ->
  exists d' k,
    to_dict gv igv meta m = inr d' /\
    key igv meta m = inr k /\
    str_contains temp_doc_id k = true /\
    Dict.get d' (id_name meta) = Some (VStr temp_doc_id) /\
    Dict.get d' "key" = Some (VStr k).
Proof.
  intros Hk Hp Hid Hn Hd.
  pose proof (key_unfixed_eq igv meta m p Hk Hp) as Hkey.
  destruct (id_get igv meta m) eqn:E; try (exfalso; apply (Hid s); reflexivity).
  all: unfold to_dict; rewrite Hd, Hkey.
  all: eexists; eexists; split; [reflexivity|]; split; [reflexivity|].
  all: split; [apply contains_temp_key|].
  all: rewrite Dict_get_set_neq by congruence; rewrite !Dict_get_set_eq, get_id_temp_key.
  all: split; reflexivity.
Qed.

(** C10 at a sample: [User().to_dict()]. *)
Lemma to_dict_placeholder_id_witness :
  exists d' k,
    to_dict Sample.gv_plain Sample.id_plain Sample.user_meta Sample.empty = inr d' /\
    key Sample.id_plain Sample.user_meta Sample.empty = inr k /\
    str_contains temp_doc_id k = true /\
    Dict.get d' (id_name Sample.user_meta) = Some (VStr temp_doc_id) /\
    Dict.get d' "key" = Some (VStr k).
Proof.
  apply (to_dict_placeholder_id Sample.gv_plain Sample.id_plain Sample.user_meta Sample.empty
           [("name", VNone); ("data", VNone)] "" ltac:(left; reflexivity) eq_refl).
  - intros i. discriminate.
  - discriminate.
  - reflexivity.
Defined.

(** ** [to_db_dict] and [_get_fields]: which fields are written *)

Lemma Dict_In_set_iff {A} (acc : list (string * A)) k x n :
  (exists v, In (n, v) (Dict.set acc k x)) <-> n = k \/ exists v, In (n, v) acc.
Proof.
  split.
  - intros [v Hv]. destruct (Dict_In_set_inv _ _ _ _ _ Hv) as [[-> _]|H]; [left; reflexivity|].
    right. exists v. exact H.
  - intros [->|[v Hv]]; [apply Dict_In_set_key | exact (Dict_In_set_keep _ _ _ _ _ Hv)].
Qed.

Lemma to_db_dict_loop_origin gv meta m ir idf co fs acc d :
  to_db_dict_loop gv meta m ir idf co fs acc = inr d ->
  forall c w, In (c, w) d ->
    In (c, w) acc \/
    exists f, In f fs /\ f_column f = c /\
      (co = true -> In (f_name f) (field_changed m)) /\
      gv f (getattr m (f_name f)) ir idf co = inr w.
Proof.
  revert acc. induction fs as [|f fs IH]; intros acc; simpl.
  - intros H. inversion H; subst. intros c w Hin. left. exact Hin.
  - destruct (co && negb (existsb (String.eqb (f_name f)) (field_changed m))) eqn:Eskip.
    + intros H c w Hin. destruct (IH _ H c w Hin) as [Hacc|(g & Hg & Hc & Hl & Hv)];
        [left; exact Hacc | right; exists g; auto].
    + destruct (gv f (getattr m (f_name f)) ir idf co) as [err|value] eqn:Egv; [discriminate|].
      intros H c w Hin. destruct (IH _ H c w Hin) as [Hacc|(g & Hg & Hc & Hl & Hv)].
      * destruct (negb (is_none value) || negb (ignore_none_field meta)); [|left; exact Hacc].
        destruct (Dict_In_set_inv _ _ _ _ _ Hacc) as [[-> ->]|H']; [|left; exact H'].
        right. exists f. split; [left; reflexivity|]. split; [reflexivity|].
        split; [|exact Egv]. intros ->. simpl in Eskip.
        apply existsb_eqb_In. destruct existsb; [reflexivity | discriminate].
      * right. exists g. auto.
Qed.

Lemma to_db_dict_loop_keeps gv meta m ir idf co fs acc d c w :
  to_db_dict_loop gv meta m ir idf co fs acc = inr d ->
  In (c, w) acc -> exists w', In (c, w') d.
Proof.
  revert acc w. induction fs as [|f fs IH]; intros acc w; simpl.
  - intros H Hin. inversion H; subst. exists w. exact Hin.
  - destruct (co && negb (existsb (String.eqb (f_name f)) (field_changed m))); [apply IH|].
    destruct (gv f (getattr m (f_name f)) ir idf co) as [err|value]; [discriminate|].
    intros H Hin. destruct (negb (is_none value) || negb (ignore_none_field meta)).
    + destruct (Dict_In_set_keep _ (f_column f) value _ _ Hin) as [w' Hw'].
      exact (IH _ _ H Hw').
    + exact (IH _ _ H Hin).
Qed.

Lemma to_db_dict_loop_includes gv meta m ir idf co fs acc d f v :
  to_db_dict_loop gv meta m ir idf co fs acc = inr d ->
  In f fs ->
  (co = true -> In (f_name f) (field_changed m)) ->
  gv f (getattr m (f_name f)) ir idf co = inr v ->
  (is_none v = false \/ ignore_none_field meta = false) ->
  exists w, In (f_column f, w) d.
Proof.
  revert acc. induction fs as [|g fs IH]; intros acc H Hin Hlog Hgv Hnn; [destruct Hin|].
  simpl in H. destruct Hin as [->|Hin].
  - assert (Hs : co && negb (existsb (String.eqb (f_name f)) (field_changed m)) = false).
    { destruct co; [|reflexivity]. simpl.
      rewrite (proj2 (existsb_eqb_In _ _) (Hlog eq_refl)). reflexivity. }
    rewrite Hs, Hgv in H.
    assert (Hc : negb (is_none v) || negb (ignore_none_field meta) = true).
    { destruct Hnn as [-> | ->]; [reflexivity | apply orb_true_r]. }
    rewrite Hc in H. destruct (Dict_In_set_key acc (f_column f) v) as [w Hw].
    exact (to_db_dict_loop_keeps _ _ _ _ _ _ _ _ _ _ _ H Hw).
  - destruct (co && negb (existsb (String.eqb (f_name g)) (field_changed m))).
    + exact (IH _ H Hin Hlog Hgv Hnn).
    + destruct (gv g (getattr m (f_name g)) ir idf co); [discriminate|].
      exact (IH _ H Hin Hlog Hgv Hnn).
Qed.

Lemma get_fields_loop_keys m co fs acc n :
  (exists v, In (n, v) (get_fields_loop m co fs acc)) <->
  (exists v, In (n, v) acc) \/
  exists f, In f fs /\ f_name f = n /\
    (co = false \/ In n (field_changed m) \/
     (is_map_field f = true /\ getattr m n <> VNone)).
Proof.
  revert acc. induction fs as [|f fs IH]; intros acc; simpl.
  - split; [intros H; left; exact H | intros [H|(f & [] & _)]; exact H].
  - destruct (negb co || existsb (String.eqb (f_name f)) (field_changed m)
              || is_map_field f && negb (is_none (getattr m (f_name f)))) eqn:E;
      rewrite IH; [rewrite Dict_In_set_iff|]; split.
    + intros [[->|Hacc]|(g & Hg & Hn & Hc)].
      * right. exists f. split; [left; reflexivity|]. split; [reflexivity|].
        apply orb_true_iff in E as [E|E]; [apply orb_true_iff in E as [E|E]|].
        -- left. destruct co; [discriminate | reflexivity].
        -- right; left. apply existsb_eqb_In. exact E.
        -- right; right. apply andb_true_iff in E as [E1 E2]. split; [exact E1|].
           destruct (getattr m (f_name f)); [discriminate | congruence ..].
      * left. exact Hacc.
      * right. exists g. auto.
    + intros [Hacc|(g & [<-|Hg] & Hn & Hc)].
      * left; right; exact Hacc.
      * left; left; symmetry; exact Hn.
      * right. exists g. auto.
    + intros [Hacc|(g & Hg & Hn & Hc)]; [left; exact Hacc | right; exists g; auto].
    + intros [Hacc|(g & [<-|Hg] & Hn & Hc)].
      * left; exact Hacc.
      * exfalso. subst n. destruct Hc as [->|[Hc|[Hm Hv]]].
        -- discriminate.
        -- apply existsb_eqb_In in Hc. rewrite Hc, orb_true_r in E. discriminate.
        -- rewrite Hm in E. destruct (getattr m (f_name f)); [congruence | ..];
             rewrite !orb_true_r in E; discriminate.
      * right. exists g. auto.
Qed.

(** C2: under [to_db_dict(changed_only=True)] a map field whose value is
    not null, and whose storage column no logged field shares, is left out
    of the written dictionary, whereas [_get_fields(changed_only=True)]
    keeps it: the map exception is made by [_get_fields] only. *)
Theorem to_db_dict_changed_only_omits_map gv meta m ir idf d f :
  to_db_dict gv meta m ir idf true = inr d ->
  In f (field_list meta) ->
  is_map_field f = true ->
  getattr m (f_name f) <> VNone ->
  (forall g, In g (field_list meta) -> f_column g = f_column f ->
     ~ In (f_name g) (field_changed m)) ->
  (forall w, ~ In (f_column f, w) d) /\
  exists v, In (f_name f, v) (get_fields meta m true).
Proof.
  intros H Hf Hm Hv Hno. split.
  - intros w Hin. destruct (to_db_dict_loop_origin _ _ _ _ _ _ _ _ _ H _ _ Hin)
      as [[]|(g & Hg & Hc & Hl & _)].
    exact (Hno g Hg Hc (Hl eq_refl)).
  - unfold get_fields. apply get_fields_loop_keys. right. exists f.
    split; [exact Hf|]. split; [reflexivity|]. right; right. split; assumption.
Qed.

(** C2 at a sample: a [User] hydrated with a non-null map [data] and no
    assignment. *)
Lemma to_db_dict_changed_only_omits_map_witness :
  let m := populate_from_doc_dict Sample.fv_plain Sample.user_meta Sample.empty
             [("data", VDict [("x", VInt 1)])] in
  to_db_dict Sample.gv_plain Sample.user_meta m false false true = inr [] /\
  (forall w : pyval, ~ In (f_column Sample.f_data, w) []) /\
  exists v, In (f_name Sample.f_data, v) (get_fields Sample.user_meta m true).
Proof.
  intros m.
  assert (Hd : to_db_dict Sample.gv_plain Sample.user_meta m false false true = inr [])
    by reflexivity.
  split; [exact Hd|].
  apply (to_db_dict_changed_only_omits_map Sample.gv_plain Sample.user_meta m false false []
           Sample.f_data Hd).
  - right; left; reflexivity.
  - reflexivity.
  - intros Hc. vm_compute in Hc. discriminate Hc.
  - intros g _ _ Hin. vm_compute in Hin. exact Hin.
Defined.

(** ** Round trip through the storage dictionary *)

Lemma get_field_by_column_name_spec fs k g :
  get_field_by_column_name fs k = Some g -> In g fs /\ f_column g = k.
Proof.
  induction fs as [|f fs IH]; simpl; [discriminate|].
  destruct (String.eqb (f_column f) k) eqn:E.
  - intros H. inversion H; subst. split; [left; reflexivity | apply String.eqb_eq; exact E].
  - intros H. destruct (IH H) as [Hin Hc]. split; [right; exact Hin | exact Hc].
Qed.

Lemma column_unique fs f g :
  NoDup (map f_column fs) -> In f fs -> In g fs -> f_column f = f_column g -> f = g.
Proof.
  induction fs as [|h fs IH]; simpl; [intros _ []|].
  intros Hnd Hf Hg Hc. inversion Hnd as [|x l Hnot Hnd' Heq]; subst.
  destruct Hf as [<-|Hf], Hg as [<-|Hg]; [reflexivity | | | exact (IH Hnd' Hf Hg Hc)].
  - exfalso. apply Hnot. rewrite Hc. apply in_map. exact Hg.
  - exfalso. apply Hnot. rewrite <- Hc. apply in_map. exact Hf.
Qed.

Lemma getattr_set_orig_attr_eq m n v : getattr (set_orig_attr m n v) n = v.
Proof. unfold getattr. simpl. rewrite Dict_get_set_eq. reflexivity. Qed.

Lemma getattr_set_orig_attr_neq m n n' v :
  n <> n' -> getattr (set_orig_attr m n v) n' = getattr m n'.
Proof. intros H. unfold getattr. simpl. rewrite Dict_get_set_neq by exact H. reflexivity. Qed.

(** Hydrating with values that every matched field already reads leaves
    every attribute as it reads. *)
Lemma populate_getattr_invariant fv meta m0 doc :
  (forall k w g, In (k, w) doc ->
     get_field_by_column_name (field_list meta) k = Some g ->
     fv g w = getattr m0 (f_name g)) ->
  forall m, (forall n, getattr m n = getattr m0 n) ->
  forall n, getattr (populate_from_doc_dict fv meta m doc) n = getattr m0 n.
Proof.
  induction doc as [|[k w] t IH]; intros Hdoc m Hm n; simpl; [apply Hm|].
  destruct (get_field_by_column_name (field_list meta) k) as [g|] eqn:E.
  - apply IH; [intros k' w' g' Hin; apply Hdoc; right; exact Hin|].
    intros n'. destruct (String.eqb (f_name g) n') eqn:En.
    + apply String.eqb_eq in En. subst n'. rewrite getattr_set_orig_attr_eq.
      apply (Hdoc k w g); [left; reflexivity | exact E].
    + rewrite getattr_set_orig_attr_neq; [apply Hm|].
      intros Heq. subst. rewrite String.eqb_refl in En. discriminate.
  - apply IH; [intros k' w' g' Hin; apply Hdoc; right; exact Hin | exact Hm].
Qed.

(** [to_db_dict] reads the instance only through its field attributes and its
    changed-fields log. *)
Lemma to_db_dict_loop_congr gv meta m m' ir idf co fs acc d :
  (forall n, getattr m' n = getattr m n) ->
  field_changed m' = field_changed m ->
  to_db_dict_loop gv meta m ir idf co fs acc = inr d ->
  to_db_dict_loop gv meta m' ir idf co fs acc = inr d.
Proof.
  intros Ha Hl. revert acc. induction fs as [|f fs IH]; intros acc; simpl; [exact (fun H => H)|].
  rewrite Hl, Ha.
  destruct (co && negb (existsb (String.eqb (f_name f)) (field_changed m))); [apply IH|].
  destruct (gv f (getattr m (f_name f)) ir idf co); [discriminate | apply IH].
Qed.

(** C6: hydrating an instance from its own storage dictionary and
    serializing it again gives the same dictionary, when every field's
    [field_value] inverts its [get_value] and the storage column names of
    the fields are distinct (so that the column lookup of the hydration
    finds the field that wrote the column).  No assumption on null values is
    needed: a column omitted for being null is not hydrated, and the field
    keeps its value. *)
Theorem to_db_dict_roundtrip gv fv meta m d :
  (forall f v w, gv f v false false false = inr w -> fv f w = v) ->
  NoDup (map f_column (field_list meta)) ->
  to_db_dict gv meta m false false false = inr d ->
  to_db_dict gv meta (populate_from_doc_dict fv meta m d) false false false = inr d.
Proof.
  intros Hinv Hnd Hd.
  apply (to_db_dict_loop_congr gv meta m); [|apply populate_field_changed_eq | exact Hd].
  apply populate_getattr_invariant; [|reflexivity].
  intros k w g Hin Hg.
  destruct (to_db_dict_loop_origin _ _ _ _ _ _ _ _ _ Hd k w Hin) as [[]|(f & Hf & Hc & _ & Hv)].
  destruct (get_field_by_column_name_spec _ _ _ Hg) as [Hgin Hgc].
  assert (f = g) as <- by (apply (column_unique (field_list meta)); congruence).
  exact (Hinv f _ _ Hv).
Qed.

(** C6 at a sample: a [User] with a name and a map. *)
Lemma to_db_dict_roundtrip_witness :
  let m := setattr Sample.user_meta
             (setattr Sample.user_meta Sample.empty "name" (VStr "a"))
             "data" (VDict [("x", VInt 1)]) in
  to_db_dict Sample.gv_plain Sample.user_meta
    (populate_from_doc_dict Sample.fv_plain Sample.user_meta m
       [("name", VStr "a"); ("data", VDict [("x", VInt 1)])]) false false false
  = inr [("name", VStr "a"); ("data", VDict [("x", VInt 1)])].
Proof.
  intros m. apply to_db_dict_roundtrip.
  - intros f v w H. inversion H. reflexivity.
  - vm_compute. repeat constructor; simpl; intuition discriminate.
  - reflexivity.
Defined.

(** ** [remove_none_field] *)

Lemma remove_none_field_dict d : remove_none_field (VDict d) = VDict (rnf_items d []).
Proof. reflexivity. Qed.

Lemma rnf_inner_value v :
  match v with VDict _ | VList _ => remove_none_field v | _ => v end = remove_none_field v.
Proof. destruct v; reflexivity. Qed.

Lemma none_free_list l : none_free (VList l) = forallb none_free l.
Proof.
  induction l as [|x t IH]; [reflexivity|].
  simpl in *. rewrite IH. reflexivity.
Qed.

Lemma none_free_dict d :
  none_free (VDict d) = forallb (fun kv => negb (is_none (snd kv)) && none_free (snd kv)) d.
Proof.
  induction d as [|[k x] t IH]; [reflexivity|].
  simpl in *. rewrite IH. reflexivity.
Qed.

Lemma rnf_items_good d acc :
  Forall (fun kv => none_free (remove_none_field (snd kv)) = true) d ->
  (forall k x, In (k, x) acc -> is_none x = false /\ none_free x = true) ->
  forall k x, In (k, x) (rnf_items d acc) -> is_none x = false /\ none_free x = true.
Proof.
  revert acc. induction d as [|[k0 v] t IH]; intros acc Hd Hacc; simpl; [exact Hacc|].
  inversion Hd as [|y l Hv Ht]; subst. simpl in Hv.
  destruct (is_none v) eqn:En; [exact (IH acc Ht Hacc)|].
  apply (IH _ Ht). intros k x Hin. rewrite rnf_inner_value in Hin.
  destruct (Dict_In_set_inv _ _ _ _ _ Hin) as [[_ ->]|H]; [|exact (Hacc k x H)].
  split; [destruct v; simpl in *; congruence | exact Hv].
Qed.

Lemma rnf_items_nodup d acc :
  NoDup (map fst d) ->
  (forall k, In k (map fst acc) -> ~ In k (map fst d)) ->
  rnf_items d acc =
    acc ++ map (fun kv => (fst kv, remove_none_field (snd kv)))
              (filter (fun kv => negb (is_none (snd kv))) d).
Proof.
  revert acc. induction d as [|[k v] t IH]; intros acc Hnd Hdis; simpl.
  - rewrite app_nil_r. reflexivity.
  - inversion Hnd as [|y l Hk Hnd' Heq]; subst.
    destruct (is_none v); simpl.
    + apply IH; [exact Hnd'|]. intros k' Hin Hin'. apply (Hdis k' Hin). right. exact Hin'.
    + rewrite rnf_inner_value, Dict_set_new.
      * rewrite IH; [rewrite <- app_assoc; reflexivity | exact Hnd' |].
        intros k' Hin Hin'. rewrite map_app in Hin. apply in_app_or in Hin as [Hin|[Hin|[]]].
        -- apply (Hdis k' Hin). right. exact Hin'.
        -- simpl in Hin. subst k'. contradiction.
      * intros Hin. apply (Hdis k Hin). left. reflexivity.
Qed.

(** C9: [remove_none_field] gives the spec's example; its result has, at any
    depth through dicts and lists, no dict key whose value is [None]; lists
    are rewritten element by element; a dict (whose keys are distinct, as
    in Python) keeps, in order, exactly its non-null entries, each value
    cleaned recursively; any other value is returned unchanged. *)
Theorem remove_none_field_spec :
  remove_none_field
    (VDict [("a", VInt 1); ("b", VNone); ("c", VDict [("d", VNone); ("e", VInt 2)])])
  = VDict [("a", VInt 1); ("c", VDict [("e", VInt 2)])] /\
  (forall v, none_free (remove_none_field v) = true) /\
  (forall l, remove_none_field (VList l) = VList (map remove_none_field l)) /\
  (forall d, NoDup (map fst d) ->
     remove_none_field (VDict d) =
       VDict (map (fun kv => (fst kv, remove_none_field (snd kv)))
                  (filter (fun kv => negb (is_none (snd kv))) d))) /\
  (forall v, match v with VList _ | VDict _ => True | _ => remove_none_field v = v end).
Proof.
  split; [reflexivity|]. split; [|split; [|split]].
  - apply pyval_nested_ind; try reflexivity.
    + intros l Hl. simpl remove_none_field. rewrite none_free_list.
      apply forallb_forall. intros y Hy. apply in_map_iff in Hy as (x & <- & Hx).
      rewrite Forall_forall in Hl. exact (Hl x Hx).
    + intros d Hd. rewrite remove_none_field_dict, none_free_dict.
      apply forallb_forall. intros [k x] Hin.
      destruct (rnf_items_good d [] Hd ltac:(intros k' x' [])  k x Hin) as [H1 H2].
      simpl. rewrite H1, H2. reflexivity.
  - reflexivity.
  - intros d Hnd. rewrite remove_none_field_dict, rnf_items_nodup; [reflexivity | exact Hnd |].
    intros k [].
  - intros []; reflexivity || exact I.
Qed.

(** * More of the program: path helpers, the rest of [utils.py], construction,
      saving and updating *)

(** ** Path helpers *)

Lemma prefix_slash c r : String.prefix "/" (String c r) = Ascii.eqb c "/"%char.
Proof. destruct c as [[] [] [] [] [] [] [] []], r; reflexivity. Qed.

Lemma str_contains_slash_cons c r :
  str_contains "/" (String c r) = Ascii.eqb c "/"%char || str_contains "/" r.
Proof.
  change (String.prefix "/" (String c r) || str_contains "/" r =
          Ascii.eqb c "/"%char || str_contains "/" r).
  rewrite prefix_slash. reflexivity.
Qed.

Lemma split_slash_free s : str_contains "/" s = false -> split_slash s = [s].
Proof.
  induction s as [|c r IH]; [reflexivity|].
  rewrite str_contains_slash_cons. intros H. apply orb_false_iff in H as [Hc Hr].
  simpl. rewrite Hc, (IH Hr). reflexivity.
Qed.

Lemma split_slash_two s : str_contains "/" s = true -> 2 <= length (split_slash s).
Proof.
  induction s as [|c r IH]; [discriminate|].
  rewrite str_contains_slash_cons. simpl. destruct (Ascii.eqb c "/"%char).
  - intros _. simpl. destruct (split_slash r) eqn:E; [exact (False_ind _ (split_slash_nonnil r E))|].
    simpl. lia.
  - simpl. intros H. specialize (IH H).
    destruct (split_slash r) as [|h t]; simpl in *; lia.
Qed.

Lemma join_slash_cons p t : t <> [] -> join_slash (p :: t) = (p ++ "/" ++ join_slash t)%string.
Proof. destruct t; [congruence | reflexivity]. Qed.

Lemma join_split s : join_slash (split_slash s) = s.
Proof.
  induction s as [|c r IH]; [reflexivity|]. simpl.
  destruct (Ascii.eqb c "/"%char) eqn:E.
  - apply Ascii.eqb_eq in E. subst c.
    rewrite join_slash_cons by apply split_slash_nonnil. rewrite IH. reflexivity.
  - destruct (split_slash r) as [|h t] eqn:Es; [exact (False_ind _ (split_slash_nonnil r Es))|].
    destruct t as [|h' t].
    + simpl in *. rewrite IH. reflexivity.
    + rewrite join_slash_cons by discriminate. rewrite join_slash_cons in IH by discriminate.
      rewrite <- IH. reflexivity.
Qed.

Lemma join_slash_snoc r x :
  r <> [] -> join_slash (r ++ [x]) = (join_slash r ++ "/" ++ x)%string.
Proof.
  induction r as [|a r IH]; [congruence|]. intros _.
  destruct r as [|b r]; [reflexivity|].
  change ((a :: b :: r) ++ [x]) with (a :: ((b :: r) ++ [x])).
  rewrite join_slash_cons by (destruct r; discriminate).
  rewrite IH by discriminate. rewrite (join_slash_cons a (b :: r)) by discriminate.
  rewrite !str_app_assoc. reflexivity.
Qed.

Lemma split_key_parts p c i :
  str_contains "/" c = false -> str_contains "/" i = false ->
  split_slash (p ++ "/" ++ c ++ "/" ++ i)%string = split_slash p ++ [c; i].
Proof.
  intros Hc Hi. rewrite split_slash_app_sep, split_slash_app_sep.
  rewrite (split_slash_free c Hc), (split_slash_free i Hi). reflexivity.
Qed.

Lemma key_parts_get_id p c i :
  str_contains "/" c = false -> str_contains "/" i = false ->
  get_id (p ++ "/" ++ c ++ "/" ++ i)%string = i.
Proof.
  intros Hc Hi. unfold get_id. rewrite split_key_parts by assumption.
  rewrite last_app_nonnil by discriminate. reflexivity.
Qed.

Lemma key_parts_get_parent_doc p c i :
  str_contains "/" c = false -> str_contains "/" i = false ->
  get_parent_doc (p ++ "/" ++ c ++ "/" ++ i)%string = p.
Proof.
  intros Hc Hi. unfold get_parent_doc. rewrite split_key_parts by assumption.
  rewrite length_app. simpl. replace (length (split_slash p) + 2 - 2) with (length (split_slash p)) by lia.
  rewrite firstn_app, Nat.sub_diag, firstn_all. simpl. rewrite app_nil_r. apply join_split.
Qed.

Lemma removelast_app_two {A} (l : list A) a b : removelast (l ++ [a; b]) = l ++ [a].
Proof.
  replace (l ++ [a; b]) with ((l ++ [a]) ++ [b]) by (rewrite <- app_assoc; reflexivity).
  apply removelast_last.
Qed.

(** X1: ['/'.join(ref_path(key))] gives the key back; a key containing ['/']
    is [collection_path(key) + '/' + get_id(key)], and a key without one has
    the empty collection path and is its own id. *)
Theorem ref_path_collection_path_roundtrip key :
  join_slash (ref_path key) = key /\
  (isKey key = true -> (collection_path key ++ "/" ++ get_id key)%string = key) /\
  (isKey key = false -> collection_path key = "" /\ get_id key = key).
Proof.
  unfold ref_path, isKey, collection_path, get_id. split; [apply join_split|]. split.
  - intros H. apply split_slash_two in H.
    assert (Hne : split_slash key <> []) by apply split_slash_nonnil.
    pose proof (app_removelast_last EmptyString Hne) as Hl.
    rewrite <- join_slash_snoc.
    + rewrite <- Hl. apply join_split.
    + intros Hr. rewrite Hr in Hl. rewrite Hl in H. simpl in H. lia.
  - intros H. rewrite (split_slash_free key H). split; reflexivity.
Qed.

(** X2: for a document key [parent/collection/id] whose collection and id
    segments hold no ['/'], [get_id] gives the id, [get_parent_doc] the
    parent, [collection_path] (and [get_parent]) the collection path
    [parent/collection], and [ref_path] the parent's segments then the two
    last ones. *)
Theorem key_parts_roundtrip p c i :
  str_contains "/" c = false -> str_contains "/" i = false ->
  get_id (p ++ "/" ++ c ++ "/" ++ i)%string = i /\
  get_parent_doc (p ++ "/" ++ c ++ "/" ++ i)%string = p /\
  collection_path (p ++ "/" ++ c ++ "/" ++ i)%string = (p ++ "/" ++ c)%string /\
  ref_path (p ++ "/" ++ c ++ "/" ++ i)%string = ref_path p ++ [c; i].
Proof.
  intros Hc Hi.
  split; [apply key_parts_get_id; assumption|].
  split; [apply key_parts_get_parent_doc; assumption|].
  unfold collection_path, ref_path. rewrite split_key_parts by assumption.
  split; [|reflexivity].
  rewrite removelast_app_two, join_slash_snoc by apply split_slash_nonnil.
  rewrite join_split. reflexivity.
Qed.

Lemma key_parts_roundtrip_witness :
  str_contains "/" "user" = false /\ str_contains "/" "u1" = false /\
  get_id ("org/acme" ++ "/" ++ "user" ++ "/" ++ "u1")%string = "u1" /\
  get_parent_doc ("org/acme" ++ "/" ++ "user" ++ "/" ++ "u1")%string = "org/acme" /\
  collection_path ("org/acme" ++ "/" ++ "user" ++ "/" ++ "u1")%string = ("org/acme" ++ "/" ++ "user")%string /\
  ref_path ("org/acme" ++ "/" ++ "user" ++ "/" ++ "u1")%string = ref_path "org/acme" ++ ["user"; "u1"].
Proof.
  split; [reflexivity|]. split; [reflexivity|].
  apply (key_parts_roundtrip "org/acme" "user" "u1"); reflexivity.
Defined.

(** X3: [generateKeyFromId] always builds a key ([isKey] holds, whatever
    the id); for an id without ['/'] its [get_id] is the given id and its
    [collection_path] is the model's collection name. *)
Theorem generateKeyFromId_roundtrip meta id :
  isKey (generateKeyFromId meta id) = true /\
  (str_contains "/" id = false ->
   get_id (generateKeyFromId meta id) = id /\
   collection_path (generateKeyFromId meta id) = collection_name meta).
Proof.
  unfold generateKeyFromId, isKey, get_id, collection_path.
  split; [apply str_contains_app_r; change ("/" ++ id)%string with (String "/" id);
           rewrite str_contains_slash_cons; reflexivity|].
  intros Hi. rewrite split_slash_app_sep, (split_slash_free id Hi).
  rewrite last_app_nonnil by discriminate. split; [reflexivity|].
  rewrite removelast_last. apply join_split.
Qed.

Lemma generateKeyFromId_roundtrip_witness :
  isKey (generateKeyFromId Sample.user_meta "u/1") = true /\
  str_contains "/" "u1" = false /\
  get_id (generateKeyFromId Sample.user_meta "u1") = "u1" /\
  collection_path (generateKeyFromId Sample.user_meta "u1") = collection_name Sample.user_meta.
Proof.
  split; [apply (generateKeyFromId_roundtrip Sample.user_meta "u/1")|].
  split; [reflexivity|]. apply (generateKeyFromId_roundtrip Sample.user_meta "u1"). reflexivity.
Defined.

(** ** [update] with a document key, and the fields it forwards *)

Lemma getattr_record m fc n : getattr {| attrs := attrs m; field_changed := fc |} n = getattr m n.
Proof. reflexivity. Qed.

Lemma set_id_nonempty meta m s p :
  s <> "" -> id_name meta <> "parent" -> id_name meta <> "_key" ->
  getattr m "parent" = VStr p ->
  exists m', set_id meta m (VStr s) = inr m' /\
    getattr m' "_key" = VStr (strip_sep (join_slash [p; collection_name meta; s])) /\
    getattr m' (id_name meta) = VStr s /\
    (forall n, n <> "_key" -> n <> id_name meta -> getattr m' n = getattr m n).
Proof.
  intros Hs Hp Hk Hpar. unfold set_id.
  assert (Ht : truthy (VStr s) = true)
    by (simpl; rewrite (proj2 (String.eqb_neq s "") Hs); reflexivity).
  rewrite Ht. unfold set_key.
  rewrite getattr_setattr_neq by congruence. rewrite getattr_record, Hpar.
  eexists. split; [reflexivity|]. split; [apply getattr_setattr_eq|]. split.
  - rewrite getattr_setattr_neq by congruence. apply getattr_setattr_eq.
  - intros n Hn1 Hn2. rewrite getattr_setattr_neq by congruence.
    rewrite getattr_setattr_neq by congruence. apply getattr_record.
Qed.

Lemma strip_sep_no_lead p z :
  p <> "" -> String.prefix "/" p = false -> strip_sep (p ++ z)%string = (p ++ z)%string.
Proof.
  destruct p as [|a r]; [congruence|]. intros _ H. rewrite prefix_slash in H.
  simpl. rewrite H. reflexivity.
Qed.

(** X4: [update(key)] with a document key [parent/collection/id] of this
    model (no placeholder, a non-empty parent not starting with ['/'], and no
    ['/'] in the collection or the id) succeeds: it sets [parent] and the id
    attribute from the key, fixes [_key] to the key itself (so [key] returns
    it), forwards the changed fields, leaves the field list and collection
    of [_meta] alone, and installs the default [IDField] under [id] when the
    model declares no id field. *)
Theorem update_document_key igv meta m p i :
  p <> "" -> String.prefix "/" p = false ->
  str_contains "/" (collection_name meta) = false ->
  str_contains "/" i = false -> i <> "" ->
  str_contains temp_doc_id (p ++ "/" ++ collection_name meta ++ "/" ++ i)%string = false ->
  id_name meta <> "parent" -> id_name meta <> "_key" ->
  exists meta' m',
    update igv meta m (VStr (p ++ "/" ++ collection_name meta ++ "/" ++ i)) =
      inr (meta', m', updated_fields meta m') /\
    getattr m' "parent" = VStr p /\
    getattr m' (id_name meta) = VStr i /\
    key igv meta' m' = inr (p ++ "/" ++ collection_name meta ++ "/" ++ i)%string /\
    field_list meta' = field_list meta /\
    collection_name meta' = collection_name meta /\
    (meta_id meta = None -> meta_id meta' = Some ("id", id_field_default)).
Proof.
  intros Hp Hps Hc Hi Hi0 Ht Hnp Hnk.
  set (k := (p ++ "/" ++ collection_name meta ++ "/" ++ i)%string).
  assert (Hk : k <> "") by (unfold k; destruct p; [congruence | discriminate]).
  assert (Hks : strip_sep (join_slash [p; collection_name meta; i]) = k)
    by (rewrite join_slash_3; apply strip_sep_no_lead; assumption).
  unfold update, set_update_doc. cbv zeta.
  assert (Htk : truthy (VStr k) = true)
    by (simpl; rewrite (proj2 (String.eqb_neq k "") Hk); reflexivity).
  rewrite Htk, getattr_setattr_eq. simpl is_none. cbv iota.
  assert (Ht' : str_contains temp_doc_id k = false) by exact Ht. rewrite Ht'.
  assert (Hpd : get_parent_doc k = p) by (apply key_parts_get_parent_doc; assumption).
  assert (Hgi : get_id k = i) by (apply key_parts_get_id; assumption).
  rewrite Hpd, Hgi.
  destruct (set_id_nonempty meta
              (setattr meta (setattr meta m "_update_doc" (VStr k)) "parent" (VStr p)) i p
              Hi0 Hnp Hnk (getattr_setattr_eq _ _ _ _)) as [m3 [Hset [Hkey [Hid Hother]]]].
  rewrite Hset. rewrite Hks in Hkey.
  assert (Hpar : getattr m3 "parent" = VStr p).
  { rewrite Hother by (congruence || (intros E; apply Hnp; symmetry; exact E)).
    apply getattr_setattr_eq. }
  eexists. exists m3. split; [reflexivity|].
  split; [exact Hpar|]. split; [exact Hid|].
  split; [|split; [|split]].
  - apply key_fixed; assumption.
  - destruct (is_none (id_get igv meta m3) && truthy (getattr m3 "id")); reflexivity.
  - destruct (is_none (id_get igv meta m3) && truthy (getattr m3 "id")); reflexivity.
  - intros Hnone. unfold id_name in Hid. rewrite Hnone in Hid.
    unfold id_get. rewrite Hnone, Hid. simpl.
    rewrite (proj2 (String.eqb_neq i "") Hi0). reflexivity.
Qed.

Lemma update_document_key_witness :
  exists meta' m',
    update Sample.id_plain Sample.user_meta Sample.empty
      (VStr ("org/acme" ++ "/" ++ collection_name Sample.user_meta ++ "/" ++ "u1")) =
      inr (meta', m', updated_fields Sample.user_meta m') /\
    getattr m' "parent" = VStr "org/acme" /\
    getattr m' (id_name Sample.user_meta) = VStr "u1" /\
    key Sample.id_plain meta' m' =
      inr ("org/acme" ++ "/" ++ collection_name Sample.user_meta ++ "/" ++ "u1")%string /\
    field_list meta' = field_list Sample.user_meta /\
    collection_name meta' = collection_name Sample.user_meta /\
    (meta_id Sample.user_meta = None -> meta_id meta' = Some ("id", id_field_default)).
Proof.
  apply (update_document_key Sample.id_plain Sample.user_meta Sample.empty "org/acme" "u1");
    (reflexivity || discriminate).
Defined.

Lemma get_fields_loop_values m co fs acc :
  (forall n v, In (n, v) acc -> v = getattr m n) ->
  forall n v, In (n, v) (get_fields_loop m co fs acc) -> v = getattr m n.
Proof.
  revert acc. induction fs as [|f fs IH]; intros acc Hacc; simpl; [exact Hacc|].
  destruct (negb co || existsb (String.eqb (f_name f)) (field_changed m)
            || (is_map_field f && negb (is_none (getattr m (f_name f))))).
  - apply IH. intros n v Hin. destruct (Dict_In_set_inv _ _ _ _ _ Hin) as [[-> ->]|H].
    + reflexivity.
    + exact (Hacc _ _ H).
  - exact (IH acc Hacc).
Qed.

Section UpdatedFold.
Variable log : list string.

Lemma keep_logged_inv l acc n v :
  In (n, v) (fold_left (keep_logged log) l acc) -> In (n, v) acc \/ (In (n, v) l /\ In n log).
Proof.
  revert acc. induction l as [|[k w] l IH]; intros acc; simpl; [left; exact H|].
  intros H. destruct (IH _ H) as [Ha|[Hl Hlog]]; [|right; split; [right; exact Hl | exact Hlog]].
  unfold keep_logged in Ha. simpl in Ha.
  destruct (existsb (String.eqb k) log) eqn:E; [|left; exact Ha].
  destruct (Dict_In_set_inv _ _ _ _ _ Ha) as [[-> ->]|Ha']; [|left; exact Ha'].
  right. split; [left; reflexivity | apply existsb_eqb_In; exact E].
Qed.

Lemma keep_logged_key l acc n :
  (exists w, In (n, w) acc) \/ ((exists w, In (n, w) l) /\ In n log) ->
  exists v, In (n, v) (fold_left (keep_logged log) l acc).
Proof.
  revert acc. induction l as [|[k w] l IH]; intros acc H; simpl.
  - destruct H as [H|[[w []] _]]. exact H.
  - apply IH. unfold keep_logged. simpl.
    destruct H as [[w' Hw]|[[w' [Hw|Hw]] Hlog]].
    + left. destruct (existsb (String.eqb k) log); [|exists w'; exact Hw].
      exact (Dict_In_set_keep _ _ _ _ _ Hw).
    + inversion Hw; subst. apply existsb_eqb_In in Hlog. rewrite Hlog.
      left. apply Dict_In_set_key.
    + right. split; [exists w'; exact Hw | exact Hlog].
Qed.
End UpdatedFold.

(** X5: the keyword arguments [update] forwards ([updated_fields]) are
    exactly the declared fields whose names are in the changed-fields log,
    each with its current attribute value. *)
Theorem updated_fields_spec meta m n v :
  In (n, v) (updated_fields meta m) <->
  (exists f, In f (field_list meta) /\ f_name f = n) /\
  In n (field_changed m) /\ v = getattr m n.
Proof.
  assert (Hval : forall n v, In (n, v) (get_fields meta m false) -> v = getattr m n)
    by (apply get_fields_loop_values; intros ? ? []).
  assert (Hkeys : forall n, (exists v, In (n, v) (get_fields meta m false)) <->
                    exists f, In f (field_list meta) /\ f_name f = n).
  { intros n'. unfold get_fields. rewrite get_fields_loop_keys. split.
    - intros [[w []]|[f [Hf [Hn _]]]]. exists f. split; assumption.
    - intros [f [Hf Hn]]. right. exists f. split; [exact Hf|]. split; [exact Hn | left; reflexivity]. }
  assert (Hdir : forall n v, In (n, v) (updated_fields meta m) ->
            (exists f, In f (field_list meta) /\ f_name f = n) /\
            In n (field_changed m) /\ v = getattr m n).
  { intros n' v' H. unfold updated_fields in H. fold (keep_logged (field_changed m)) in H.
    destruct (keep_logged_inv _ _ _ _ _ H) as [[]|[Hin Hlog]].
    split; [apply Hkeys; exists v'; exact Hin|]. split; [exact Hlog | exact (Hval _ _ Hin)]. }
  split; [apply Hdir|].
  intros [Hf [Hlog ->]].
  destruct (keep_logged_key (field_changed m) (get_fields meta m false) [] n)
    as [w Hw].
  { right. split; [apply Hkeys; exact Hf | exact Hlog]. }
  unfold updated_fields. fold (keep_logged (field_changed m)).
  destruct (Hdir n w) as [_ [_ Hw']]; [exact Hw|]. subst w. exact Hw.
Qed.

(** X6: [save(merge)] hands [collection.create] the current values of the
    declared fields: every field when [merge] is falsy (the default
    [None]), and when it is truthy only the fields in the changed-fields log
    and the map fields whose value is not [None]; [upsert] is the truthy
    case. *)
Theorem save_forwarded_fields meta m merge n :
  (forall v, In (n, v) (snd (save meta m merge)) -> v = getattr m n) /\
  ((exists v, In (n, v) (snd (save meta m merge))) <->
     exists f, In f (field_list meta) /\ f_name f = n /\
       (truthy merge = false \/ In n (field_changed m) \/
        (is_map_field f = true /\ getattr m n <> VNone))) /\
  ((exists v, In (n, v) (snd (upsert meta m))) <->
     exists f, In f (field_list meta) /\ f_name f = n /\
       (In n (field_changed m) \/ (is_map_field f = true /\ getattr m n <> VNone))).
Proof.
  split; [apply get_fields_loop_values; intros ? ? []|]. split.
  - unfold save, get_fields. simpl snd. rewrite get_fields_loop_keys. split.
    + intros [[w []]|H]. exact H.
    + intros H. right. exact H.
  - unfold upsert, save, get_fields. simpl snd. rewrite get_fields_loop_keys. split.
    + intros [[w []]|[f [Hf [Hn [H|H]]]]]; [discriminate|].
      exists f. split; [exact Hf|]. split; [exact Hn | exact H].
    + intros [f [Hf [Hn H]]]. right. exists f. split; [exact Hf|]. split; [exact Hn | right; exact H].
Qed.

(** ** [remove_none_field] *)

Lemma Dict_set_nodup {A} (d : list (string * A)) k v :
  NoDup (map fst d) -> NoDup (map fst (Dict.set d k v)).
Proof.
  induction d as [|[k0 v0] t IH]; simpl; intros H.
  - constructor; [intros []| constructor].
  - inversion H as [|x l Hn Ht]; subst.
    destruct (String.eqb k k0) eqn:E; simpl; constructor; [exact Hn | exact Ht | | exact (IH Ht)].
    intros Hin. apply in_map_iff in Hin as [[k1 v1] [Hk1 Hin]]. simpl in Hk1. subst k1.
    destruct (Dict_In_set_inv _ _ _ _ _ Hin) as [[-> _]|Hin'].
    + apply String.eqb_neq in E. congruence.
    + apply Hn. apply in_map_iff. exists (k0, v1). split; [reflexivity | exact Hin'].
Qed.

Lemma rnf_items_nodup_keys d acc :
  NoDup (map fst acc) -> NoDup (map fst (rnf_items d acc)).
Proof.
  revert acc. induction d as [|[k v] t IH]; intros acc H; simpl; [exact H|].
  destruct (is_none v); apply IH; [exact H | apply Dict_set_nodup; exact H].
Qed.

Lemma rnf_items_entries d acc k y :
  In (k, y) (rnf_items d acc) ->
  In (k, y) acc \/ exists x, In (k, x) d /\ is_none x = false /\ y = remove_none_field x.
Proof.
  revert acc. induction d as [|[k0 v] t IH]; intros acc; simpl; [left; exact H|].
  intros H. destruct (is_none v) eqn:Ev.
  - destruct (IH _ H) as [Ha|[x [Hx Hrest]]]; [left; exact Ha|].
    right. exists x. split; [right; exact Hx | exact Hrest].
  - destruct (IH _ H) as [Ha|[x [Hx Hrest]]].
    + destruct (Dict_In_set_inv _ _ _ _ _ Ha) as [[-> ->]|Ha']; [|left; exact Ha'].
      right. exists v. split; [left; reflexivity|]. split; [exact Ev | apply rnf_inner_value].
    + right. exists x. split; [right; exact Hx | exact Hrest].
Qed.

Lemma remove_none_field_is_none x : is_none (remove_none_field x) = is_none x.
Proof. destruct x; reflexivity. Qed.

Lemma filter_all_true {A} (f : A -> bool) l : (forall x, In x l -> f x = true) -> filter f l = l.
Proof.
  induction l as [|a l IH]; simpl; intros H; [reflexivity|].
  rewrite (H a (or_introl eq_refl)), IH; [reflexivity|]. intros x Hx. apply H. right. exact Hx.
Qed.

(** X7: [remove_none_field] is idempotent: cleaning an already cleaned
    value changes nothing, at any depth. *)
Theorem remove_none_field_idempotent v :
  remove_none_field (remove_none_field v) = remove_none_field v.
Proof.
  induction v as [| | | |l IH|d IH] using pyval_nested_ind; try reflexivity.
  - simpl. rewrite map_map. f_equal. apply map_ext_in.
    intros x Hx. rewrite Forall_forall in IH. exact (IH x Hx).
  - rewrite !remove_none_field_dict. f_equal.
    set (r := rnf_items d []).
    assert (Hent : forall k y, In (k, y) r ->
              exists x, In (k, x) d /\ is_none x = false /\ y = remove_none_field x).
    { intros k y H. destruct (rnf_items_entries _ _ _ _ H) as [[]|E]. exact E. }
    rewrite rnf_items_nodup.
    + simpl. rewrite filter_all_true.
      * rewrite <- (map_id r) at 2. apply map_ext_in. intros [k y] Hin.
        destruct (Hent _ _ Hin) as [x [Hx [_ ->]]]. simpl.
        rewrite Forall_forall in IH. exact (f_equal (pair k) (IH (k, x) Hx)).
      * intros [k y] Hin. destruct (Hent _ _ Hin) as [x [_ [Hn ->]]]. simpl.
        rewrite remove_none_field_is_none, Hn. reflexivity.
    + apply rnf_items_nodup_keys. constructor.
    + intros k [].
Qed.

(** X8: [remove_none_field] never drops a list element: a list keeps its
    length, and an element is [None] after cleaning exactly when it was
    [None] before. *)
Theorem remove_none_field_list_keeps l i :
  exists l', remove_none_field (VList l) = VList l' /\ length l' = length l /\
    (nth_error l' i = Some VNone <-> nth_error l i = Some VNone).
Proof.
  exists (map remove_none_field l). split; [reflexivity|].
  split; [apply length_map|]. rewrite nth_error_map.
  destruct (nth_error l i) as [x|]; simpl; [|split; intros H; exact H].
  split; intros H; inversion H as [H']; [|reflexivity].
  destruct x; try discriminate; reflexivity.
Qed.

(** ** [get_nested] and [get_flat_dict] *)

Lemma get_nested_falsy v args : truthy v = false -> get_nested v args = inr VNone.
Proof. destruct args; simpl; [reflexivity|]. intros ->. reflexivity. Qed.

Lemma get_nested_cons v e rest :
  get_nested v (e :: rest) =
  if truthy v then
    if String.eqb e "" then inr VNone
    else match v with
         | VDict items =>
             let value := match Dict.get items e with Some w => w | None => VNone end in
             match rest with [] => inr value | _ => get_nested value rest end
         | _ => inl AttributeError
         end
  else inr VNone.
Proof. reflexivity. Qed.

Lemma String_eqb_nonempty k : k <> "" -> String.eqb k "" = false.
Proof. apply String.eqb_neq. Qed.

Lemma Dict_get_some_nonnil {A} (d : list (string * A)) k v : Dict.get d k = Some v -> d <> [].
Proof. destruct d; [discriminate | intros _; discriminate]. Qed.

(** X9: [get_nested] returns [None], never raising, when no path is given,
    when the container is falsy (empty dict, [None], ...), when a path
    element is the empty string, and when a key of the path is missing
    from a dict: [None] then travels down the rest of the path. *)
Theorem get_nested_none_cases :
  (forall v, get_nested v [] = inr VNone) /\
  (forall v args, truthy v = false -> get_nested v args = inr VNone) /\
  (forall v rest, get_nested v ("" :: rest) = inr VNone) /\
  (forall d k rest, k <> "" -> Dict.get d k = None ->
     get_nested (VDict d) (k :: rest) = inr VNone).
Proof.
  split; [reflexivity|]. split; [exact get_nested_falsy|]. split.
  - intros v rest. simpl. destruct (truthy v); reflexivity.
  - intros d k rest Hk Hg. simpl. destruct d as [|kv d']; [reflexivity|].
    rewrite String_eqb_nonempty by exact Hk. rewrite Hg.
    destruct rest; [reflexivity|]. apply get_nested_falsy. reflexivity.
Qed.

(** X10: through a dict holding [v] under a non-empty key [k], [get_nested]
    returns [v] for the one-element path and continues with [v] for a
    longer one; if [v] is truthy but not a dict, going further raises
    [AttributeError] (the [.get] of a non-dict). *)
Theorem get_nested_walk d k v :
  k <> "" -> Dict.get d k = Some v ->
  get_nested (VDict d) [k] = inr v /\
  (forall rest, rest <> [] -> get_nested (VDict d) (k :: rest) = get_nested v rest) /\
  (forall k' rest, k' <> "" -> truthy v = true -> (forall d', v <> VDict d') ->
     get_nested (VDict d) (k :: k' :: rest) = inl AttributeError).
Proof.
  intros Hk Hg.
  assert (Ht : truthy (VDict d) = true)
    by (destruct d; [discriminate | reflexivity]).
  assert (Hstep : forall rest, get_nested (VDict d) (k :: rest) =
                    match rest with [] => inr v | _ => get_nested v rest end).
  { intros rest. rewrite get_nested_cons, Ht, String_eqb_nonempty by exact Hk.
    rewrite Hg. reflexivity. }
  split; [apply Hstep|]. split.
  - intros rest Hr. rewrite Hstep. destruct rest; [congruence | reflexivity].
  - intros k' rest Hk' Htv Hnd. rewrite Hstep, get_nested_cons, Htv, String_eqb_nonempty by exact Hk'.
    destruct v as [| | | | |dv]; try reflexivity. exfalso. exact (Hnd dv eq_refl).
Qed.

Lemma get_nested_walk_witness :
  ("a" <> "" /\ Dict.get [("a", VStr "x")] "a" = Some (VStr "x")) /\
  (get_nested (VDict [("a", VStr "x")]) ["a"] = inr (VStr "x") /\
   (forall rest, rest <> [] ->
      get_nested (VDict [("a", VStr "x")]) ("a" :: rest) = get_nested (VStr "x") rest) /\
   (forall k' rest, k' <> "" -> truthy (VStr "x") = true -> (forall d', VStr "x" <> VDict d') ->
      get_nested (VDict [("a", VStr "x")]) ("a" :: k' :: rest) = inl AttributeError)).
Proof.
  split; [split; [discriminate | reflexivity]|].
  apply (get_nested_walk [("a", VStr "x")] "a" (VStr "x")); [discriminate | reflexivity].
Defined.

Lemma flat_value_dict d p : flat_value (VDict d) p = flat_items p d [].
Proof. reflexivity. Qed.

Lemma dict_update_inv a b k x : In (k, x) (dict_update a b) -> In (k, x) a \/ In (k, x) b.
Proof.
  revert a. induction b as [|[k0 x0] b IH]; intros a; simpl; [left; exact H|].
  intros H. destruct (IH _ H) as [Ha|Hb]; [|right; right; exact Hb].
  destruct (Dict_In_set_inv _ _ _ _ _ Ha) as [[-> ->]|Ha']; [right; left; reflexivity | left; exact Ha'].
Qed.

Lemma flat_items_entries p d acc k x :
  In (k, x) (flat_items p d acc) ->
  In (k, x) acc \/
  exists k0 x0, In (k0, x0) d /\
    match x0 with
    | VDict _ => In (k, x) (flat_value x0 (prefixed p k0))
    | _ => k = prefixed p k0 /\ x = x0
    end.
Proof.
  revert acc. induction d as [|[k0 x0] t IH]; intros acc; simpl; [left; exact H|].
  intros H. destruct x0 as [| | | | |d0];
    (destruct (IH _ H) as [Ha|[k1 [x1 [Hin Hm]]]];
     [|right; exists k1, x1; split; [right; exact Hin | exact Hm]]).
  6: { destruct (dict_update_inv _ _ _ _ Ha) as [Ha'|Hb]; [left; exact Ha'|].
       right. exists k0, (VDict d0). split; [left; reflexivity | exact Hb]. }
  all: destruct (Dict_In_set_inv _ _ _ _ _ Ha) as [[-> ->]|Ha'];
    [right; eexists _, _; split; [left; reflexivity | split; reflexivity] | left; exact Ha'].
Qed.

Lemma flat_value_leaves v p k x : In (k, x) (flat_value v p) -> forall d', x <> VDict d'.
Proof.
  revert p k x.
  induction v as [| | | |l _|d IH] using pyval_nested_ind; intros p k x H; try destruct H.
  rewrite flat_value_dict in H.
  destruct (flat_items_entries _ _ _ _ _ H) as [[]|[k0 [x0 [Hin Hm]]]].
  rewrite Forall_forall in IH. specialize (IH (k0, x0) Hin). simpl in IH.
  destruct x0; try (destruct Hm as [_ ->]; intros d' Hd; discriminate).
  exact (IH _ _ _ Hm).
Qed.

Lemma flat_items_app p d1 d2 acc :
  flat_items p (d1 ++ d2) acc = flat_items p d2 (flat_items p d1 acc).
Proof.
  revert acc. induction d1 as [|[k x] t IH]; intros acc; [reflexivity|].
  simpl. destruct x; apply IH.
Qed.

Lemma dict_update_keeps a b c w : In (c, w) a -> exists w', In (c, w') (dict_update a b).
Proof.
  revert a w. induction b as [|[k x] b IH]; intros a w H; simpl; [exists w; exact H|].
  destruct (Dict_In_set_keep _ k x _ _ H) as [w' Hw']. exact (IH _ _ Hw').
Qed.

Lemma dict_update_key a b c w : In (c, w) b -> exists w', In (c, w') (dict_update a b).
Proof.
  revert a. induction b as [|[k x] b IH]; intros a Hb; [destruct Hb|].
  simpl. destruct Hb as [E|H].
  - inversion E; subst. destruct (Dict_In_set_key a c w) as [w' Hw'].
    exact (dict_update_keeps _ b _ _ Hw').
  - exact (IH _ H).
Qed.

Lemma flat_items_keeps p d acc c w :
  In (c, w) acc -> exists w', In (c, w') (flat_items p d acc).
Proof.
  revert acc w. induction d as [|[k x] t IH]; intros acc w H; simpl; [exists w; exact H|].
  assert (IH' : forall a, (exists w0, In (c, w0) a) -> exists w', In (c, w') (flat_items p t a))
    by (intros a [w0 Hw0]; exact (IH _ _ Hw0)).
  destruct x; apply IH'; first [exact (dict_update_keeps _ _ _ _ H) | exact (Dict_In_set_keep _ _ _ _ _ H)].
Qed.

Lemma dict_update_nodup a b : NoDup (map fst a) -> NoDup (map fst (dict_update a b)).
Proof.
  revert a. induction b as [|[k x] b IH]; intros a H; simpl; [exact H|].
  apply IH. apply Dict_set_nodup. exact H.
Qed.

Lemma flat_items_nodup p d acc : NoDup (map fst acc) -> NoDup (map fst (flat_items p d acc)).
Proof.
  revert acc. induction d as [|[k x] t IH]; intros acc H; simpl; [exact H|].
  destruct x; apply IH; first [apply dict_update_nodup | apply Dict_set_nodup]; exact H.
Qed.

Lemma dict_update_fresh a b : NoDup (map fst (a ++ b)) -> dict_update a b = a ++ b.
Proof.
  revert a. induction b as [|[k x] b IH]; intros a H; simpl; [rewrite app_nil_r; reflexivity|].
  rewrite map_app in H. simpl in H.
  rewrite Dict_set_new by (intros Hin; apply (NoDup_remove_2 _ _ _ H);
                            apply in_or_app; left; exact Hin).
  rewrite IH; [rewrite <- app_assoc; reflexivity|].
  rewrite map_app, map_app, <- app_assoc. exact H.
Qed.

(** X11: [get_flat_dict] never leaves a dict as a value; the entries of a
    nested dict appear in the result, under its key joined with a dot
    (exactly so when it is the only entry); and an empty nested dict adds
    no key at all. *)
Theorem get_flat_dict_shape :
  (forall d p k x, In (k, x) (get_flat_dict d p) -> forall d', x <> VDict d') /\
  (forall d1 k e d2 p k' x, In (k', x) (get_flat_dict e (prefixed p k)) ->
     exists x', In (k', x') (get_flat_dict (d1 ++ (k, VDict e) :: d2) p)) /\
  (forall k e p, get_flat_dict [(k, VDict e)] p = get_flat_dict e (prefixed p k)) /\
  (forall d1 k d2 p, get_flat_dict (d1 ++ (k, VDict []) :: d2) p = get_flat_dict (d1 ++ d2) p).
Proof.
  split; [intros d p; apply flat_value_leaves|]. split; [|split].
  - intros d1 k e d2 p k' x H. unfold get_flat_dict. rewrite !flat_value_dict, flat_items_app.
    simpl. destruct (dict_update_key (flat_items p d1 []) _ _ _ H) as [w Hw].
    exact (flat_items_keeps _ _ _ _ _ Hw).
  - intros k e p. unfold get_flat_dict. rewrite !flat_value_dict. simpl.
    apply dict_update_fresh. simpl. apply flat_items_nodup. constructor.
  - intros d1 k d2 p. unfold get_flat_dict. rewrite !flat_value_dict, !flat_items_app.
    reflexivity.
Qed.

Lemma nodup_strings_NoDup l : nodup_strings l = true -> NoDup l.
Proof.
  induction l as [|x t IH]; simpl; intros H; [constructor|].
  apply andb_true_iff in H as [Hx Ht]. constructor; [|exact (IH Ht)].
  intros Hin. apply negb_true_iff in Hx. apply (proj2 (existsb_eqb_In x t)) in Hin. congruence.
Qed.

Lemma well_keyed_dict d :
  well_keyed (VDict d) = true ->
  NoDup (map fst d) /\ forall k x, In (k, x) d -> k <> "" /\ well_keyed x = true.
Proof.
  simpl. intros H. apply andb_true_iff in H as [Hn Hd].
  split; [exact (nodup_strings_NoDup _ Hn)|]. clear Hn.
  induction d as [|[k0 x0] t IH]; [intros ? ? []|].
  apply andb_true_iff in Hd as [H0 Ht]. apply andb_true_iff in H0 as [Hk Hx].
  intros k x [E|Hin]; [inversion E; subst|exact (IH Ht _ _ Hin)].
  split; [|exact Hx]. apply negb_true_iff in Hk. apply String.eqb_neq. exact Hk.
Qed.

Lemma Dict_get_In_nodup {A} (d : list (string * A)) k v :
  NoDup (map fst d) -> In (k, v) d -> Dict.get d k = Some v.
Proof.
  induction d as [|[k0 v0] t IH]; simpl; [intros _ []|].
  intros Hn [E|Hin]; inversion Hn as [|x l Hnot Ht]; subst.
  - inversion E; subst. rewrite String.eqb_refl. reflexivity.
  - destruct (String.eqb k k0) eqn:Ek.
    + apply String.eqb_eq in Ek. subst. exfalso. apply Hnot. apply in_map_iff.
      exists (k0, v). split; [reflexivity | exact Hin].
    + exact (IH Ht Hin).
Qed.

Lemma prefixed_prefixed p k0 s :
  k0 <> "" -> prefixed (prefixed p k0) s = prefixed p (k0 ++ "." ++ s).
Proof.
  intros Hk. unfold prefixed at 2. destruct (String.eqb p "") eqn:Ep.
  - unfold prefixed. rewrite String_eqb_nonempty by exact Hk. rewrite Ep. reflexivity.
  - unfold prefixed. rewrite Ep.
    destruct (String.eqb (p ++ "." ++ k0) "") eqn:E.
    + apply String.eqb_eq in E. destruct p; [discriminate | discriminate].
    + rewrite !str_app_assoc. reflexivity.
Qed.

Lemma join_dot_cons a t : t <> [] -> join_dot (a :: t) = (a ++ "." ++ join_dot t)%string.
Proof. destruct t; [congruence | reflexivity]. Qed.

Lemma flat_value_reachable v p :
  well_keyed v = true ->
  forall k x, In (k, x) (flat_value v p) ->
  exists path, path <> [] /\ k = prefixed p (join_dot path) /\ get_nested v path = inr x.
Proof.
  revert p. induction v as [| | | |l _|d IH] using pyval_nested_ind;
    intros p Hw k x H; try destruct H.
  rewrite flat_value_dict in H. destruct (well_keyed_dict d Hw) as [Hnd Hent].
  destruct (flat_items_entries _ _ _ _ _ H) as [[]|[k0 [x0 [Hin Hm]]]].
  destruct (Hent _ _ Hin) as [Hk0 Hw0].
  pose proof (Dict_get_In_nodup _ _ _ Hnd Hin) as Hg.
  assert (Ht : truthy (VDict d) = true) by (destruct d; [destruct Hin | reflexivity]).
  assert (Hstep : forall rest, get_nested (VDict d) (k0 :: rest) =
                    match rest with [] => inr x0 | _ => get_nested x0 rest end).
  { intros rest. rewrite get_nested_cons, Ht, String_eqb_nonempty by exact Hk0.
    rewrite Hg. reflexivity. }
  destruct x0 as [| | | | |d0]; try (destruct Hm as [-> ->]; exists [k0];
    split; [discriminate|]; split; [reflexivity | apply Hstep]).
  rewrite Forall_forall in IH. specialize (IH _ Hin). simpl in IH.
  destruct (IH (prefixed p k0) Hw0 k x Hm) as [path [Hpne [Hkp Hgp]]].
  exists (k0 :: path). split; [discriminate|]. split.
  - rewrite Hkp, prefixed_prefixed by exact Hk0. rewrite join_dot_cons by exact Hpne. reflexivity.
  - rewrite Hstep. destruct path; [congruence | exact Hgp].
Qed.

(** X12: every entry of [get_flat_dict(d)] is reached by [get_nested] along
    the path its key spells with ['.'], when every dict reached through [d]
    has distinct, non-empty keys. *)
Theorem get_flat_dict_reachable d k x :
  well_keyed (VDict d) = true -> In (k, x) (get_flat_dict d "") ->
  exists path, path <> [] /\ k = join_dot path /\ get_nested (VDict d) path = inr x.
Proof.
  intros Hw H. destruct (flat_value_reachable _ "" Hw _ _ H) as [path [Hp [Hk Hg]]].
  exists path. split; [exact Hp|]. split; [exact Hk | exact Hg].
Qed.

Lemma get_flat_dict_reachable_witness :
  well_keyed (VDict [("a", VDict [("b", VInt 1)]); ("d", VStr "x")]) = true /\
  In ("a.b", VInt 1) (get_flat_dict [("a", VDict [("b", VInt 1)]); ("d", VStr "x")] "") /\
  exists path, path <> [] /\ "a.b" = join_dot path /\
    get_nested (VDict [("a", VDict [("b", VInt 1)]); ("d", VStr "x")]) path = inr (VInt 1).
Proof.
  split; [reflexivity|]. split; [left; reflexivity|].
  apply (get_flat_dict_reachable [("a", VDict [("b", VInt 1)]); ("d", VStr "x")] "a.b" (VInt 1));
    [reflexivity | left; reflexivity].
Defined.

(** ** [collection_name] *)

Lemma lower_char_not_upper c : is_upper (lower_char c) = false.
Proof. destruct c as [[] [] [] [] [] [] [] []]; reflexivity. Qed.

Lemma lower_char_underscore c : Ascii.eqb (lower_char c) "_"%char = Ascii.eqb c "_"%char.
Proof. destruct c as [[] [] [] [] [] [] [] []]; reflexivity. Qed.

Lemma lower_no_upper s : forallb (fun c => negb (is_upper c)) (list_ascii_of_string (lower s)) = true.
Proof. induction s as [|c r IH]; [reflexivity|]. simpl. rewrite lower_char_not_upper, IH. reflexivity. Qed.

Lemma sub_upper_runs_underscores b r :
  filter (fun c => negb (Ascii.eqb c "_"%char)) (list_ascii_of_string (lower (sub_upper_runs b r))) =
  filter (fun c => negb (Ascii.eqb c "_"%char)) (list_ascii_of_string (lower r)).
Proof.
  revert b. induction r as [|c r IH]; intros b; [reflexivity|].
  simpl sub_upper_runs. destruct (is_upper c), b; simpl; rewrite !lower_char_underscore, !IH; reflexivity.
Qed.

(** X13: [collection_name(model)] only lowercases the name and inserts
    underscores: its result has no uppercase letter left, and dropping the
    underscores from it gives the lowercased name with its underscores
    dropped. *)
Theorem collection_name_of_shape s :
  forallb (fun c => negb (is_upper c)) (list_ascii_of_string (collection_name_of s)) = true /\
  filter (fun c => negb (Ascii.eqb c "_"%char)) (list_ascii_of_string (collection_name_of s)) =
  filter (fun c => negb (Ascii.eqb c "_"%char)) (list_ascii_of_string (lower s)).
Proof.
  unfold collection_name_of. split; [apply lower_no_upper|].
  destruct s as [|c r]; [reflexivity|]. simpl.
  rewrite lower_char_underscore, sub_upper_runs_underscores. reflexivity.
Qed.

(** ** Construction: [__init__] and [from_dict] *)

Lemma fold_setattr_log meta l m0 :
  field_changed (fold_left (fun m kv => setattr meta m (fst kv) (snd kv)) l m0) =
  field_changed m0 ++ filter (is_declared meta) (map fst l).
Proof.
  revert m0. induction l as [|[k v] l IH]; intros m0; simpl; [rewrite app_nil_r; reflexivity|].
  rewrite IH. simpl. destruct (is_declared meta k); [rewrite <- app_assoc|]; reflexivity.
Qed.

Lemma fold_init_nested_log meta ni nfd kw fs m0 :
  (forall f, In f fs -> is_declared meta (f_name f) = true) ->
  field_changed (fold_left (init_nested meta ni nfd kw) fs m0) =
  field_changed m0 ++ map f_name (filter (logs_nested kw) fs).
Proof.
  revert m0. induction fs as [|f fs IH]; intros m0 Hd; simpl; [rewrite app_nil_r; reflexivity|].
  rewrite IH by (intros g Hg; apply Hd; right; exact Hg).
  unfold init_nested, logs_nested.
  assert (Hf : is_declared meta (f_name f) = true) by (apply Hd; left; reflexivity).
  destruct (is_nested_field f); simpl; [|reflexivity].
  destruct (Dict.get kw (f_name f)) as [[| | | | |d]|]; simpl; try reflexivity;
    rewrite Hf, <- app_assoc; reflexivity.
Qed.

Lemma fold_init_nested_other meta ni nfd kw fs m0 n :
  ~ In n (map f_name fs) ->
  getattr (fold_left (init_nested meta ni nfd kw) fs m0) n = getattr m0 n.
Proof.
  revert m0. induction fs as [|f fs IH]; intros m0 Hn; simpl; [reflexivity|].
  simpl in Hn. rewrite IH by tauto. unfold init_nested.
  destruct (is_nested_field f); [|reflexivity].
  destruct (Dict.get kw (f_name f)) as [[| | | | |d]|]; try reflexivity;
    apply getattr_setattr_neq; tauto.
Qed.

Lemma fold_init_nested_absent meta ni nfd kw fs m0 f :
  NoDup (map f_name fs) -> In f fs -> is_nested_field f = true ->
  Dict.get kw (f_name f) = None ->
  getattr (fold_left (init_nested meta ni nfd kw) fs m0) (f_name f) = ni f.
Proof.
  revert m0. induction fs as [|g fs IH]; intros m0 Hnd Hin Hn Hk; [destruct Hin|].
  simpl in Hnd. inversion Hnd as [|x l Hnot Hnd']; subst. simpl.
  destruct Hin as [<-|Hin].
  - rewrite fold_init_nested_other by exact Hnot. unfold init_nested.
    rewrite Hn, Hk. apply getattr_setattr_eq.
  - exact (IH _ Hnd' Hin Hn Hk).
Qed.

Lemma declared_field meta f : In f (field_list meta) -> is_declared meta (f_name f) = true.
Proof. intros H. apply existsb_eqb_In. apply in_map. exact H. Qed.

Lemma init_setattr_plain meta m k v :
  plain_kwarg k = true -> init_setattr meta m k v = inr (setattr meta m k v).
Proof.
  intros Hp. pose proof Hp as H. unfold plain_kwarg in H. apply negb_true_iff in H. simpl in H.
  apply orb_false_iff in H as [H1 H]. apply orb_false_iff in H as [H2 _].
  unfold init_setattr. rewrite H1, H2, Hp. reflexivity.
Qed.

Lemma init_kwargs_plain_app meta m kw l :
  forallb plain_kwarg (map fst kw) = true ->
  init_kwargs meta m (kw ++ l) =
  init_kwargs meta (fold_left (fun m kv => setattr meta m (fst kv) (snd kv)) kw m) l.
Proof.
  revert m. induction kw as [|[k v] kw IH]; intros m H; [reflexivity|].
  simpl in H. apply andb_true_iff in H as [Hk H]. simpl.
  rewrite init_setattr_plain by exact Hk. apply IH. exact H.
Qed.

(** X14: constructing a model ([__init__]) with keyword arguments that are
    plain attributes logs, in order, those naming declared fields, then
    every nested-model field it fills itself: those not passed, and those
    passed as a dict (which are so logged twice); a nested field not passed
    holds a fresh nested instance.  A later keyword argument [key] makes
    the construction raise [AttributeError]; a last keyword argument [_id]
    runs the [_id] property setter on the model built so far. *)
Theorem model_init_log meta ni nfd kwargs :
  forallb plain_kwarg (map fst kwargs) = true ->
  (exists m, model_init meta ni nfd false kwargs = inr m /\
    field_changed m = filter (is_declared meta) (map fst kwargs) ++
                      map f_name (filter (logs_nested kwargs) (field_list meta)) /\
    (NoDup (field_names meta) ->
     forall f, In f (field_list meta) -> is_nested_field f = true ->
     Dict.get kwargs (f_name f) = None -> getattr m (f_name f) = ni f)) /\
  (forall v rest,
     model_init meta ni nfd false (kwargs ++ ("key", v) :: rest) = inl InitAttributeError) /\
  (forall v,
     model_init meta ni nfd false (kwargs ++ [("_id", v)]) =
     match set_id meta (fold_left (fun m kv => setattr meta m (fst kv) (snd kv)) kwargs
                          (mkModel [] [])) v with
     | inl e => inl (InitRaised e)
     | inr m => inr (fold_left (init_nested meta ni nfd (kwargs ++ [("_id", v)]))
                       (field_list meta) m)
     end).
Proof.
  intros Hp. split; [|split].
  - unfold model_init.
    replace (init_kwargs meta (mkModel [] []) kwargs)
      with (init_kwargs meta (mkModel [] []) (kwargs ++ [])) by (rewrite app_nil_r; reflexivity).
    rewrite init_kwargs_plain_app by exact Hp. simpl.
    eexists. split; [reflexivity|]. split.
    + rewrite fold_init_nested_log by (intros f Hf; apply declared_field; exact Hf).
      rewrite fold_setattr_log. reflexivity.
    + intros Hnd f Hf Hn Hk. apply fold_init_nested_absent; assumption.
  - intros v rest. unfold model_init. rewrite init_kwargs_plain_app by exact Hp. reflexivity.
  - intros v. unfold model_init. rewrite init_kwargs_plain_app by exact Hp. simpl.
    unfold init_setattr. simpl. destruct set_id; reflexivity.
Qed.

Lemma model_init_log_witness :
  forallb plain_kwarg (map fst [("name", VStr "a")]) = true /\
  model_init Sample.user_meta (fun _ => VDict []) (fun _ v => v) false
    ([("name", VStr "a")] ++ [("key", VStr "user/u1")]) = inl InitAttributeError.
Proof.
  split; [reflexivity|].
  exact (proj1 (proj2 (model_init_log Sample.user_meta (fun _ => VDict []) (fun _ v => v)
                         [("name", VStr "a")] eq_refl)) (VStr "user/u1") []).
Defined.

Lemma name_unique fs f g :
  NoDup (map f_name fs) -> In f fs -> In g fs -> f_name f = f_name g -> f = g.
Proof.
  induction fs as [|h fs IH]; simpl; [intros _ []|].
  intros Hnd Hf Hg Hc. inversion Hnd as [|x l Hnot Hnd' Heq]; subst.
  destruct Hf as [<-|Hf], Hg as [<-|Hg]; [reflexivity | | | exact (IH Hnd' Hf Hg Hc)].
  - exfalso. apply Hnot. rewrite Hc. apply in_map. exact Hg.
  - exfalso. apply Hnot. rewrite <- Hc. apply in_map. exact Hf.
Qed.

Lemma get_field_by_column_name_some fs f :
  In f fs -> exists g, get_field_by_column_name fs (f_column f) = Some g.
Proof.
  induction fs as [|h fs IH]; simpl; [intros []|]. intros [<-|Hin].
  - rewrite String.eqb_refl. eexists. reflexivity.
  - destruct (String.eqb (f_column h) (f_column f)); [eexists; reflexivity | exact (IH Hin)].
Qed.

Lemma populate_other fv meta m doc n :
  (forall k w g, In (k, w) doc -> get_field_by_column_name (field_list meta) k = Some g ->
     f_name g <> n) ->
  getattr (populate_from_doc_dict fv meta m doc) n = getattr m n.
Proof.
  revert m. induction doc as [|[k w] t IH]; intros m H; simpl; [reflexivity|].
  destruct (get_field_by_column_name (field_list meta) k) as [g|] eqn:Eg.
  - rewrite IH by (intros k' w' g' Hin; apply (H k' w' g'); right; exact Hin).
    apply getattr_set_orig_attr_neq. exact (H k w g (or_introl eq_refl) Eg).
  - apply IH. intros k' w' g' Hin. apply (H k' w' g'). right. exact Hin.
Qed.

Lemma populate_column fv meta m doc f v :
  NoDup (map f_column (field_list meta)) -> NoDup (field_names meta) ->
  NoDup (map fst doc) -> In f (field_list meta) -> In (f_column f, v) doc ->
  getattr (populate_from_doc_dict fv meta m doc) (f_name f) = fv f v.
Proof.
  intros Hc Hn. revert m. induction doc as [|[k w] t IH]; intros m Hd Hf Hin; [destruct Hin|].
  simpl in Hd. inversion Hd as [|x l Hnot Hd']; subst. simpl.
  destruct Hin as [E|Hin].
  - inversion E; subst k w.
    destruct (get_field_by_column_name_some _ _ Hf) as [g Hg]. rewrite Hg.
    destruct (get_field_by_column_name_spec _ _ _ Hg) as [Hgin Hgc].
    assert (g = f) by (apply (column_unique (field_list meta)); assumption). subst g.
    rewrite populate_other; [apply getattr_set_orig_attr_eq|].
    intros k' w' g' Hin' Hg' Hname.
    destruct (get_field_by_column_name_spec _ _ _ Hg') as [Hg'in Hg'c].
    assert (g' = f) by (apply (name_unique (field_list meta)); assumption). subst g'.
    apply Hnot. apply in_map_iff. exists (k', w'). split; [simpl; congruence | exact Hin'].
  - destruct (get_field_by_column_name (field_list meta) k) as [g|];
      apply IH; assumption.
Qed.

(** X15: [from_dict(d)] builds a fresh instance and hydrates it: its
    changed-fields log holds exactly the nested-model fields that
    [__init__] filled, and, when storage columns, field names and the keys
    of [d] are distinct, each declared field whose column is in [d] holds
    the descriptor's [field_value] of that entry. *)
Theorem from_dict_loaded meta ni nfd fv d :
  exists m, from_dict meta ni nfd fv false (Some d) = inr (Some m) /\
    field_changed m = map f_name (filter is_nested_field (field_list meta)) /\
    (NoDup (map f_column (field_list meta)) -> NoDup (field_names meta) -> NoDup (map fst d) ->
     forall f v, In f (field_list meta) -> In (f_column f, v) d -> getattr m (f_name f) = fv f v).
Proof.
  eexists. split; [reflexivity|]. split.
  - rewrite populate_field_changed_eq.
    rewrite fold_init_nested_log by (intros f Hf; apply declared_field; exact Hf).
    simpl. f_equal. apply filter_ext. intros f. unfold logs_nested. simpl. apply andb_true_r.
  - intros Hc Hn Hd f v Hf Hin. apply populate_column; assumption.
Qed.

(** ** [join_keys] *)

Lemma join_dot_merge a b t :
  join_dot ((a ++ "." ++ b)%string :: t) = (a ++ "." ++ join_dot (b :: t))%string.
Proof. destruct t; simpl; [reflexivity | rewrite !str_app_assoc; reflexivity]. Qed.

(** X16: [join_keys] of strings joins them with ['.'] (the keys
    [get_flat_dict] builds), and it does not escape dots: a segment holding
    a dot gives the same key as the two segments around it. *)
Theorem join_keys_paths :
  (forall a t, join_keys (KStr a) (map KStr t) = join_dot (a :: t)) /\
  (forall first args b c,
     join_keys first (args ++ [KStr (b ++ "." ++ c)]) =
     join_keys first (args ++ [KStr b; KStr c])).
Proof.
  split.
  - intros a t. unfold join_keys. simpl py_str. revert a.
    induction t as [|b t IH]; intros a; [reflexivity|].
    simpl. rewrite IH. apply join_dot_merge.
  - intros first args b c. unfold join_keys. rewrite !fold_left_app. simpl.
    rewrite !str_app_assoc. reflexivity.
Qed.
